(** * Scientist network extractor: a shallow embedding of
      [extract_scientists_final.py] and the properties of its pipeline.

    The pipeline is
      tokens -> column text -> aggregated text with page markers
             -> entity map (parse_scientist_entries)
             -> resolved connections (extract_connections)
             -> edges (create_relationships).

    Modelling choices.
    - A Python [str] is a [list ascii]; a character is a code point of the
      Latin-1 range, classified as Python classifies it ([isspace],
      [isupper], the regex class [\d]).
    - A Python [int] is a [Z].
    - [Dict[int, Scientist]] is a [gmap Z Scientist], [Set[int]] a [gset Z].
      The iteration order of both is left unspecified by the model.
    - pdfplumber coordinates are exact rationals ([Qc]).
    - A regular expression is a function that tries to match at the head of
      the remaining text; [re.sub], [re.finditer], [re.findall] and
      [re.search] are one left-to-right scan over it. *)

From Stdlib Require Import ZArith QArith Qcanon Ascii String List Lia.
From Stdlib Require Import Lqa.
From stdpp Require Import gmap list numbers sorting.
Import ListNotations.

Set Warnings "-clear-no-such-hyp".

(** * The program *)

(** ** Python strings *)

Module PyStr.

Abbreviation text := (list ascii).

(** A string literal as a text. *)
Definition str (s : string) : text := list_ascii_of_string s.

(** The line feed. *)
Definition nl : ascii := "010"%char.

Definition code (c : ascii) : N := N_of_ascii c.

Definition between (lo hi : N) (c : ascii) : bool :=
  ((lo <=? code c) && (code c <=? hi))%N.

(** [str.isspace] on one character: TAB..CR, FS..US, SPACE, NEL, NBSP. *)
Definition isspace (c : ascii) : bool :=
  between 9 13 c || between 28 32 c || between 133 133 c || between 160 160 c.

(** The regex class [\d] (Unicode category Nd): only 0..9 below U+0100. *)
Definition isdigit (c : ascii) : bool := between 48 57 c.

(** [str.isupper] on one character: A..Z and the Latin-1 capitals. *)
Definition isupper (c : ascii) : bool :=
  between 65 90 c || between 192 214 c || between 216 222 c.

(** The value of a decimal digit. *)
Definition digit_value (c : ascii) : Z := Z.of_N (code c) - 48.

(** [int(ds)] for a run of decimal digits. *)
Definition int (ds : text) : Z :=
  fold_left (fun acc c => 10 * acc + digit_value c)%Z ds 0%Z.

(** The decimal digit of a value below ten. *)
Definition digit_char (d : N) : ascii := ascii_of_N (48 + d).

(** The digits of [n] in front of [acc], least significant digit first;
    one round per digit. *)
Fixpoint digits_of (fuel : nat) (n : N) (acc : text) : text :=
  match fuel with
  | O => acc
  | S fuel' =>
      let acc' := digit_char (n mod 10) :: acc in
      if (n / 10 =? 0)%N then acc' else digits_of fuel' (n / 10) acc'
  end.

(** A number has at most [S (log2 n)] decimal digits ([repr_N_spec] below:
    the digits read back give [n]). *)
Definition repr_N (n : N) : text := digits_of (S (N.to_nat (N.log2 n))) n [].

(** [str(z)] for an integer, as an f-string prints it. *)
Definition repr (z : Z) : text :=
  if (z <? 0)%Z then "-"%char :: repr_N (Z.to_N (- z)) else repr_N (Z.to_N z).

(** [s.strip()] *)
Fixpoint lstrip (s : text) : text :=
  match s with
  | c :: s' => if isspace c then lstrip s' else s
  | [] => []
  end.

Definition rstrip (s : text) : text := rev (lstrip (rev s)).

Definition strip (s : text) : text := rstrip (lstrip s).

(** [s.split()]: the maximal runs of non-blank characters.  [split_go]
    returns the run that starts at the head (empty if the head is blank)
    and the runs after it. *)
Definition push_word (w : text) (ws : list text) : list text :=
  match w with [] => ws | _ => w :: ws end.

Fixpoint split_go (s : text) : text * list text :=
  match s with
  | [] => ([], [])
  | c :: s' =>
      let '(w, ws) := split_go s' in
      if isspace c then ([], push_word w ws) else (c :: w, ws)
  end.

Definition split (s : text) : list text :=
  let '(w, ws) := split_go s in push_word w ws.

(** [sep.join(ws)] *)
Fixpoint join (sep : text) (ws : list text) : text :=
  match ws with
  | [] => []
  | [w] => w
  | w :: ws' => w ++ sep ++ join sep ws'
  end.

(** [s[:k]] with Python's slice rules: a negative [k] counts from the end,
    and both ends are clamped to the string. *)
Definition slice_to (s : text) (k : Z) : text :=
  if (k <? 0)%Z then take (Z.to_nat (Z.of_nat (length s) + k)) s
  else take (Z.to_nat k) s.

(** [sum(1 for c in w if p(c))] *)
Definition count (p : ascii -> bool) (w : text) : nat :=
  length (List.filter p w).

(** Literal prefix of a pattern. *)
Fixpoint eat (lit s : text) : option text :=
  match lit, s with
  | [], _ => Some s
  | a :: lit', b :: s' => if Ascii.eqb a b then eat lit' s' else None
  | _ :: _, [] => None
  end.

(** A greedy character class [p*]: the longest prefix and the rest. *)
Fixpoint span (p : ascii -> bool) (s : text) : text * text :=
  match s with
  | c :: s' => if p c then let '(a, b) := span p s' in (c :: a, b) else ([], s)
  | [] => ([], [])
  end.

End PyStr.
Import PyStr.

(** ** The regular expressions of the program *)

Module Regex.

(** One item of a scan: a character no match covers, or a match with its
    start offset. *)
Inductive item (M : Type) : Type :=
| Lit (c : ascii)
| Hit (start : nat) (m : M).
Arguments Lit {M} c.
Arguments Hit {M} start m.

Section Scan.
Context {M : Type}.
(** [try_match s] matches the pattern at the head of [s] and returns the
    match with the text after it. *)
Variable try_match : text -> option (M * text).

(** The engine tries the pattern at each offset from the left; after a
    match it goes on behind the match. *)
Fixpoint scan (fuel pos : nat) (s : text) : list (item M) :=
  match fuel, s with
  | S fuel', c :: s' =>
      match try_match s with
      | Some (m, rest) =>
          Hit pos m :: scan fuel' (pos + (length s - length rest)) rest
      | None => Lit c :: scan fuel' (S pos) s'
      end
  | _, _ => []
  end.

(** A match is at least one character long, so [length s] rounds are
    enough for [s] (see [scan_fuel] below). *)
Definition scan_from (pos : nat) (s : text) : list (item M) :=
  scan (length s) pos s.

Definition scan_all (s : text) : list (item M) := scan_from 0 s.

Definition hits (its : list (item M)) : list (nat * M) :=
  omap (fun it => match it with Hit p m => Some (p, m) | Lit _ => None end) its.
End Scan.

(** [re.sub(pattern, repl, s)]: every match gives [repl], every other
    character itself. *)
Definition render {M} (repl : text) (it : item M) : text :=
  match it with Lit c => [c] | Hit _ _ => repl end.

Definition sub {M} (try_match : text -> option (M * text)) (repl s : text) : text :=
  flat_map (render repl) (scan_all try_match s).

(** [re.finditer(pattern, s)]: start offset and groups of every match. *)
Definition finditer {M} (try_match : text -> option (M * text)) (s : text)
  : list (nat * M) := hits (scan_all try_match s).

(** [re.findall(pattern, s)] for a pattern with one group. *)
Definition findall {M} (try_match : text -> option (M * text)) (s : text)
  : list M := (hits (scan_all try_match s)).*2.

(** [re.search(pattern, s)] *)
Definition search {M} (try_match : text -> option (M * text)) (s : text)
  : option M := head (findall try_match s).

(** [\d+] followed by the literal [close]; the digits are the group. *)
Definition digits_then (close : text) (s : text) : option (text * text) :=
  let '(ds, r) := span isdigit s in
  match ds with
  | [] => None
  | _ => match eat close r with Some r' => Some (ds, r') | None => None end
  end.

(** [r'\n---PAGE_\d+---\n'] *)
Definition page_line (s : text) : option (text * text) :=
  match eat (nl :: str "---PAGE_") s with
  | Some r => digits_then (str "---" ++ [nl]) r
  | None => None
  end.

(** [r'---PAGE_(\d+)---'] *)
Definition page_marker (s : text) : option (text * text) :=
  match eat (str "---PAGE_") s with
  | Some r => digits_then (str "---") r
  | None => None
  end.

(** [r'\s+'] *)
Definition blanks (s : text) : option (text * text) :=
  let '(ws, r) := span isspace s in
  match ws with [] => None | _ => Some (ws, r) end.

(** [r'\[(\d+)\]'] *)
Definition ref_tag (s : text) : option (text * text) :=
  match eat (str "[") s with
  | Some r => digits_then (str "]") r
  | None => None
  end.

(** The bracket pattern: a tag [r'\[(\d+)\]'] (group 1) followed by the
    longest run of characters other than an opening bracket (group 2). *)
Definition bracket_pattern (s : text) : option ((text * text) * text) :=
  match ref_tag s with
  | Some (ds, r) =>
      let '(txt, r') := span (fun c => negb (Ascii.eqb c "["%char)) r in
      Some ((ds, txt), r')
  | None => None
  end.

End Regex.
Import Regex.

(** ** Entities and the entry parser ([parse_scientist_entries]) *)

Record Scientist : Type := mkScientist {
  id : Z;
  name : text;
  biography : text;
  page_number : Z;
  connections : gset Z
}.

Definition set_page_number (p : Z) (s : Scientist) : Scientist :=
  mkScientist (id s) (name s) (biography s) p (connections s).

Definition set_biography (b : text) (s : Scientist) : Scientist :=
  mkScientist (id s) (name s) b (page_number s) (connections s).

(** [s.connections.add(n)] *)
Definition add_connection (n : Z) (s : Scientist) : Scientist :=
  mkScientist (id s) (name s) (biography s) (page_number s) ({[n]} ∪ connections s).

Module Parser.

(** The variables of the loop: [self.scientists], [current_scientist] and
    [current_biography].

    [current_scientist] is the object that [self.scientists] holds under
    its id once it was saved; here the map holds a copy.  Every change of
    the current object is followed by another save of it (when the next
    entry starts, or behind the loop), so the copy is refreshed before the
    map is read; [Store] below keeps the objects in a store instead, and
    [store_agrees] shows that both give the same map. *)
Record state : Type := mkState {
  scientists : gmap Z Scientist;
  current_scientist : option Scientist;
  current_biography : text
}.

Definition initial : state := mkState ∅ None [].

(** [clean_text]: page lines and runs of blanks become one space. *)
Definition clean (txt : text) : text :=
  sub blanks (str " ") (sub page_line (str " ") txt).

(** [biography = re.sub(r'\s+', ' ', current_biography.strip()).strip()] *)
Definition normalize (b : text) : text :=
  strip (sub blanks (str " ") (strip b)).

(** [int(page_match.group(1)) if page_match else 0] on [text[:stop]]. *)
Definition page_of (txt : text) (stop : Z) : Z :=
  match search page_marker (slice_to txt stop) with
  | Some ds => int ds
  | None => 0%Z
  end.

(** Saving the current scientist: lines 168-181, and 223-234 behind the
    loop.  [stop] is the end of the slice of [text] searched for a page
    marker. *)
Definition save (txt : text) (stop : Z) (st : state) : state :=
  match current_scientist st with
  | Some cur =>
      let biography := normalize (current_biography st) in
      let page_number := page_of txt stop in
      let cur := set_biography biography (set_page_number page_number cur) in
      mkState (<[id cur := cur]> (scientists st)) (Some cur) (current_biography st)
  | None => st
  end.

(** A reference [n] recorded on the current scientist, with [piece]
    appended to the biography (lines 204-214 and 217-220). *)
Definition record_reference (n : Z) (piece : text) (st : state) : state :=
  match current_scientist st with
  | Some cur =>
      mkState (scientists st) (Some (add_connection n cur))
              (current_biography st ++ piece)
  | None => st
  end.

(** The body of [for match in matches]; a match is its start offset and
    its two groups. *)
Definition step (txt : text) (st : state) (mt : nat * (text * text)) : state :=
  let '(start, (g1, g2)) := mt in
  let scientist_id := int g1 in
  let text_after_bracket := strip g2 in
  let words := split text_after_bracket in
  match words with
  | first_word :: rest =>
      let capital_count := count isupper first_word in
      let st := save txt (Z.of_nat start) st in
      if (2 <=? capital_count) && (2 <? length first_word) then
        mkState (scientists st)
                (Some (mkScientist scientist_id first_word [] 0 ∅))
                (if 1 <? length words then join (str " ") rest else [])
      else
        record_reference scientist_id
          (str " [" ++ repr scientist_id ++ str "] " ++ text_after_bracket) st
  | [] =>
      record_reference scientist_id
        (str " [" ++ repr scientist_id ++ str "]") st
  end.

Definition loop (txt : text) (ms : list (nat * (text * text))) (st : state) : state :=
  fold_left (step txt) ms st.

(** Behind the loop: "Don't forget the last scientist". *)
Definition finish (txt : text) (st : state) : state :=
  save txt (Z.of_nat (length txt) - Z.of_nat (length (current_biography st))) st.

Definition run (txt : text) : state :=
  finish txt (loop txt (finditer bracket_pattern (clean txt)) initial).

(** [self.scientists] after [parse_scientist_entries(text)] on a fresh
    extractor. *)
Definition parse_scientist_entries (txt : text) : gmap Z Scientist :=
  scientists (run txt).

End Parser.
Import Parser.

(** *** The same loop with the objects in a store

    Python keeps one [Scientist] object per entry: [current_scientist] and
    the value of [self.scientists] are references to it, and a change of
    the current object is seen through the map.  [Store] models that: the
    objects live in a list, by address, and the map and the current
    scientist hold addresses.  [store_agrees] below shows that the map read
    at the end is the map of [Parser]. *)

Module Store.

Record state : Type := mkState {
  objects : list Scientist;
  scientists : gmap Z nat;
  current_scientist : option nat;
  current_biography : text
}.

Definition initial : state := mkState [] ∅ None [].

Definition save (txt : text) (stop : Z) (st : state) : state :=
  match current_scientist st with
  | Some a =>
      let biography := normalize (current_biography st) in
      let page_number := page_of txt stop in
      let objects :=
        alter (fun cur => set_biography biography (set_page_number page_number cur))
              a (objects st) in
      match objects !! a with
      | Some cur =>
          mkState objects (<[id cur := a]> (scientists st)) (Some a)
                  (current_biography st)
      | None => st
      end
  | None => st
  end.

Definition record_reference (n : Z) (piece : text) (st : state) : state :=
  match current_scientist st with
  | Some a =>
      mkState (alter (add_connection n) a (objects st)) (scientists st) (Some a)
              (current_biography st ++ piece)
  | None => st
  end.

Definition step (txt : text) (st : state) (mt : nat * (text * text)) : state :=
  let '(start, (g1, g2)) := mt in
  let scientist_id := int g1 in
  let text_after_bracket := strip g2 in
  let words := split text_after_bracket in
  match words with
  | first_word :: rest =>
      let capital_count := count isupper first_word in
      let st := save txt (Z.of_nat start) st in
      if (2 <=? capital_count) && (2 <? length first_word) then
        mkState (objects st ++ [mkScientist scientist_id first_word [] 0 ∅])
                (scientists st)
                (Some (length (objects st)))
                (if 1 <? length words then join (str " ") rest else [])
      else
        record_reference scientist_id
          (str " [" ++ repr scientist_id ++ str "] " ++ text_after_bracket) st
  | [] =>
      record_reference scientist_id
        (str " [" ++ repr scientist_id ++ str "]") st
  end.

Definition loop (txt : text) (ms : list (nat * (text * text))) (st : state) : state :=
  fold_left (step txt) ms st.

Definition finish (txt : text) (st : state) : state :=
  save txt (Z.of_nat (length txt) - Z.of_nat (length (current_biography st))) st.

Definition run (txt : text) : state :=
  finish txt (loop txt (finditer bracket_pattern (clean txt)) initial).

(** The entity map as a reader of [self.scientists] sees it. *)
Definition view (st : state) : gmap Z Scientist :=
  omap (fun a => objects st !! a) (scientists st).

Definition parse_scientist_entries (txt : text) : gmap Z Scientist :=
  view (run txt).

End Store.

(** ** The reference resolver ([extract_connections]) *)

(** The body of [for ref in references]. *)
Definition resolve_step (scientist_id : Z) (s : Scientist) (ref : text) : Scientist :=
  let ref_id := int ref in
  if decide (ref_id ≠ scientist_id) then add_connection ref_id s else s.

Definition resolve (scientist_id : Z) (s : Scientist) : Scientist :=
  fold_left (resolve_step scientist_id) (findall ref_tag (biography s)) s.

Definition extract_connections (scientists : gmap Z Scientist) : gmap Z Scientist :=
  map_imap (fun scientist_id s => Some (resolve scientist_id s)) scientists.

(** [total_connections = sum(len(s.connections) for s in
    self.scientists.values())], the count that [extract_connections]
    reports. *)
Definition total_connections (scientists : gmap Z Scientist) : nat :=
  sum_list ((fun s => size (connections s)) <$> (map_to_list scientists).*2).

(** ** The graph builder ([create_relationships]) *)

Record Relationship : Type := mkRelationship { source : Z; target : Z }.

Definition edges_of (scientist_id : Z) (s : Scientist) : list Relationship :=
  (fun target_id => mkRelationship scientist_id target_id) <$> elements (connections s).

Definition create_relationships (scientists : gmap Z Scientist)
    (relationships : list Relationship) : list Relationship :=
  relationships ++ (map_to_list scientists ≫= fun kv => edges_of kv.1 kv.2).

(** ** The column segmenter ([extract_text_in_columns]) *)

Module Columns.

(** A word of [page.extract_words()]: its text, left edge and top. *)
Record Word : Type := mkWord { w_text : text; x0 : Qc; top : Qc }.

(** A stable sort: [x] goes in front of the first element it does not
    exceed, so elements that compare equal keep their order. *)
Fixpoint insert_by {A} (le : A -> A -> bool) (x : A) (l : list A) : list A :=
  match l with
  | [] => [x]
  | y :: l' => if le x y then x :: l else y :: insert_by le x l'
  end.

Definition sort_by {A} (le : A -> A -> bool) (l : list A) : list A :=
  foldr (insert_by le) [] l.

Definition Qc_leb (a b : Qc) : bool := bool_decide (a <= b)%Qc.
Definition Qc_ltb (a b : Qc) : bool := bool_decide (a < b)%Qc.

(** [sorted(ws, key=lambda w: w['top'])] *)
Definition sort_by_top (ws : list Word) : list Word :=
  sort_by (fun a b => Qc_leb (top a) (top b)) ws.

(** Lines 51-65: the words below the header line. *)
Definition content_words (words : list Word) : list Word :=
  match sort_by_top words with
  | w0 :: _ =>
      let top_y := top w0 in
      let header_threshold := (top_y + Qc_of_Z 5)%Qc in
      match List.filter (fun w => Qc_ltb header_threshold (top w)) words with
      | [] => words
      | cw => cw
      end
  | [] => words
  end.

(** [gaps]: one triple (gap, left, right) per pair of neighbours. *)
Fixpoint gaps_of (xs : list Qc) : list (Qc * Qc * Qc) :=
  match xs with
  | a :: (b :: _) as xs' => ((b - a)%Qc, a, b) :: gaps_of xs'
  | _ => []
  end.

(** The order of Python tuples: the first component that differs decides. *)
Definition triple_leb (s t : Qc * Qc * Qc) : bool :=
  let '(g1, a1, b1) := s in
  let '(g2, a2, b2) := t in
  Qc_ltb g1 g2
  || (bool_decide (g1 = g2)
      && (Qc_ltb a1 a2 || (bool_decide (a1 = a2) && Qc_leb b1 b2))).

(** [gaps.sort(reverse=True)] *)
Definition sort_desc (gs : list (Qc * Qc * Qc)) : list (Qc * Qc * Qc) :=
  sort_by (fun s t => triple_leb t s) gs.

(** Lines 67-82. *)
Definition column_boundary (cw : list Word) (width : Qc) : Qc :=
  let x_positions := sort_by Qc_leb (x0 <$> cw) in
  match sort_desc (gaps_of x_positions) with
  | (_, a, b) :: _ => ((a + b) / Qc_of_Z 2)%Qc
  | [] => (width / Qc_of_Z 2)%Qc
  end.

Definition left_column_words (cw : list Word) (boundary : Qc) : list Word :=
  sort_by_top (List.filter (fun w => Qc_ltb (x0 w) boundary) cw).

Definition right_column_words (cw : list Word) (boundary : Qc) : list Word :=
  sort_by_top (List.filter (fun w => negb (Qc_ltb (x0 w) boundary)) cw).

Definition column_text (ws : list Word) : text := join (str " ") (w_text <$> ws).

(** The text of a page from its words and its width. *)
Definition layout (words : list Word) (width : Qc) : text :=
  match words with
  | [] => []
  | _ =>
      let cw := content_words words in
      let boundary := column_boundary cw width in
      column_text (left_column_words cw boundary)
        ++ [nl; nl] ++ column_text (right_column_words cw boundary)
  end.

End Columns.
Import Columns.

(** ** The page aggregator ([extract_text_from_pdf]) *)

Module Aggregator.

(** The outcome of a call that may raise. *)
Inductive result (A : Type) : Type :=
| Ok (a : A)
| Raise (msg : text).
Arguments Ok {A} a.
Arguments Raise {A} msg.

#[export] Instance result_bind : MBind result := fun A B k r =>
  match r with Ok a => k a | Raise e => Raise e end.

(** A page of the document: [page.extract_words()] may raise. *)
Record Page : Type := mkPage { extract_words : result (list Word); width : Qc }.

Definition extract_text_in_columns (page : Page) : result text :=
  words ← extract_words page; Ok (layout words (width page)).

(** [pages[i]] with Python's list indexing. *)
Definition index (pages : list Page) (i : Z) : result Page :=
  let n := Z.of_nat (length pages) in
  let j := (if i <? 0 then n + i else i)%Z in
  if (j <? 0)%Z then Raise (str "list index out of range")
  else match pages !! Z.to_nat j with
       | Some p => Ok p
       | None => Raise (str "list index out of range")
       end.

(** [f"\n---PAGE_{page_num + 1}---\n{text}"] *)
Definition page_header (page_num : Z) : text :=
  [nl] ++ str "---PAGE_" ++ repr (page_num + 1) ++ str "---" ++ [nl].

(** [for i in range(num_pages)], from [i] on with [n] rounds left. *)
Fixpoint pages_loop (pages : list Page) (start_idx i : Z) (n : nat)
    (full_text : text) : result text :=
  match n with
  | O => Ok full_text
  | S n' =>
      let page_num := (start_idx + i)%Z in
      if (Z.of_nat (length pages) <=? page_num)%Z then Ok full_text
      else
        page ← index pages page_num;
        txt ← extract_text_in_columns page;
        pages_loop pages start_idx (i + 1) n'
          (match txt with
           | [] => full_text
           | _ => full_text ++ page_header page_num ++ txt
           end)
  end.

(** [pdf] is what [pdfplumber.open(self.pdf_path)] gives: the pages, or an
    exception.  Whatever is raised inside the [try] ends in [return ""]. *)
Definition extract_text_from_pdf (pdf : result (list Page))
    (start_page num_pages : Z) : text :=
  match (pages ← pdf;
         pages_loop pages (start_page - 1) 0 (Z.to_nat num_pages) [])
  with
  | Ok full_text => full_text
  | Raise _ => []
  end.

End Aggregator.
Import Aggregator.

(** ** The network ([process], steps 2 to 5) *)

(** The [nodes] and [links] of the document that [generate_network_json]
    writes. *)
Record Network : Type := mkNetwork {
  nodes : list Scientist;
  links : list Relationship
}.

Definition build_network (txt : text) : Network :=
  let scientists := extract_connections (parse_scientist_entries txt) in
  let relationships := create_relationships scientists [] in
  mkNetwork (map_to_list scientists).*2 relationships.

(** ** The output document ([to_dict], [generate_network_json]) *)

(** A node of the document, the dictionary of [Scientist.to_dict].  The
    keys [id], [name], [page_number] and [connections] of the dictionary
    are the fields [node_id], [node_name], [node_page_number] and
    [node_connections]. *)
Record Node : Type := mkNode {
  node_id : Z;
  node_name : text;
  biography_length : nat;
  node_page_number : Z;
  biography_full : text;
  node_connections : list Z
}.

Definition to_dict (s : Scientist) : Node :=
  mkNode (id s) (name s) (length (biography s)) (page_number s) (biography s)
         (elements (connections s)).

(** The [metadata] of the document; [source_label] is its key [source]. *)
Record Metadata : Type := mkMetadata {
  total_scientists : nat;
  total_relationships : nat;
  source_label : text;
  extraction_method : text
}.

(** The document that [json.dump] writes; [doc_nodes] and [doc_links] are
    its keys [nodes] and [links]. *)
Record Document : Type := mkDocument {
  metadata : Metadata;
  doc_nodes : list Node;
  doc_links : list Relationship
}.

Definition generate_network_json (scientists : gmap Z Scientist)
    (relationships : list Relationship) : Document :=
  mkDocument
    (mkMetadata (size scientists) (length relationships)
       (str "Asimov's Biography of Scientists") (str "Column-Aware PDF Parser"))
    (to_dict <$> (map_to_list scientists).*2)
    relationships.

(** [process] on a new extractor: the document it writes, or none when the
    aggregated text is empty. *)
Definition process (pdf : result (list Page)) (start_page num_pages : Z)
  : option Document :=
  match extract_text_from_pdf pdf start_page num_pages with
  | [] => None
  | txt =>
      let scientists := extract_connections (parse_scientist_entries txt) in
      let relationships := create_relationships scientists [] in
      Some (generate_network_json scientists relationships)
  end.

(** ** The statistics ([generate_summary_stats]) *)

(** [len(x.connections)] *)
Definition degree (s : Scientist) : nat := size (connections s).

(** [sorted(values, key=lambda x: len(x.connections), reverse=True)[:10]],
    with [values] the scientists in the order of the dictionary. *)
Definition most_connected (values : list Scientist) : list Scientist :=
  take 10 (sort_by (fun a b => degree b <=? degree a) values).

(** [set(s.page_number for s in self.scientists.values() if s.page_number)] *)
Definition pages_with_scientists (scientists : gmap Z Scientist) : gset Z :=
  list_to_set (List.filter (fun n => negb (n =? 0)%Z)
                 (page_number <$> (map_to_list scientists).*2)).

(** * Notions used to state the properties *)

(** Every entity is stored under its own id. *)
Definition keyed (m : gmap Z Scientist) : Prop :=
  map_Forall (fun k e => id e = k) m.

(** The numeric ids of the bracket tags of a text, as a set. *)
Definition tag_ids (b : text) : gset Z := list_to_set (int <$> findall ref_tag b).

(** The tag [[n]] as the parser writes it into a biography. *)
Definition tag_of (n : Z) : text := "["%char :: repr n ++ [ "]"%char ].

(** The page number of the last page marker in front of [offset], the
    "nearest preceding marker" of the specification (0 if there is none). *)
Definition nearest_preceding_page (txt : text) (offset : nat) : Z :=
  match last (findall page_marker (take offset txt)) with
  | Some ds => int ds
  | None => 0%Z
  end.

Module Classification.


(** The token has at least two capitals and more than two characters. *)
Definition entity_like (w : text) : Prop := 2 <= count isupper w /\ 2 < length w.



End Classification.
Import Classification.

Module Spans.

(** A match of the bracket pattern: start offset, group 1, group 2. *)
Abbreviation rmatch := (nat * (text * text))%type.

Definition tokens (mt : rmatch) : list text := split (strip mt.2.2).

(** The match starts a new entity. *)
Definition is_entity (mt : rmatch) : Prop :=
  exists w rest, tokens mt = w :: rest /\ entity_like w.

Definition entity_name (mt : rmatch) : text := default [] (head (tokens mt)).

(** What the match of a new entity gives to its biography. *)
Definition seed (mt : rmatch) : text := join (str " ") (tail (tokens mt)).

(** What a reference gives to the biography of the current entity. *)
Definition piece (mt : rmatch) : text :=
  str " [" ++ repr (int mt.2.1) ++ str "]"
  ++ match tokens mt with [] => [] | _ => " "%char :: strip mt.2.2 end.

(** The biography buffer of the span that [m] starts and the references
    [refs] continue. *)
Definition buffer_of (m : rmatch) (refs : list rmatch) : text :=
  seed m ++ concat (piece <$> refs).

(** [e], stored under [k], is the entity of one span of the matches [ms]:
    a new-entity match with id [k], the references behind it, up to the
    next new-entity match or the end of the matches.  Its name and its
    biography are functions of the span. *)
Definition span_of (ms : list rmatch) (k : Z) (e : Scientist) : Prop :=
  exists pre m refs post,
    ms = pre ++ m :: refs ++ post
    /\ is_entity m /\ int m.2.1 = k
    /\ Forall (fun r => ~ is_entity r) refs
    /\ match post with [] => True | m' :: _ => is_entity m' end
    /\ name e = entity_name m
    /\ biography e = normalize (buffer_of m refs).

(** The entity stored under [k] is still the current one. *)
Definition pending (st : state) (k : Z) : Prop :=
  exists c, current_scientist st = Some c /\ id c = k.

(** The span of [e] is closed by a later new-entity match. *)
Definition closed (ms : list rmatch) (k : Z) (e : Scientist) : Prop :=
  exists pre m refs m' post,
    ms = pre ++ m :: refs ++ m' :: post
    /\ is_entity m /\ int m.2.1 = k
    /\ Forall (fun r => ~ is_entity r) refs
    /\ is_entity m'
    /\ name e = entity_name m
    /\ biography e = normalize (buffer_of m refs).

(** The current entity and its buffer come from the span at the end of the
    matches read so far. *)
Definition open_span (ms : list rmatch) (st : state) : Prop :=
  forall c, current_scientist st = Some c ->
    exists pre m refs,
      ms = pre ++ m :: refs
      /\ is_entity m /\ id c = int m.2.1
      /\ Forall (fun r => ~ is_entity r) refs
      /\ name c = entity_name m
      /\ current_biography st = buffer_of m refs.

Definition inv (ms : list rmatch) (st : state) : Prop :=
  (forall k e, scientists st !! k = Some e -> pending st k \/ closed ms k e)
  /\ open_span ms st.

End Spans.
Import Spans.

(** The text that a match covers, and the offset behind it. *)
Definition match_text (mt : rmatch) : text :=
  "["%char :: mt.2.1 ++ "]"%char :: mt.2.2.

Definition match_end (mt : rmatch) : nat := mt.1 + length (match_text mt).

(** What the matches of the bracket pattern look like: a run of digits in
    the tag and no opening bracket in the text behind it. *)
Definition tag_match (mt : rmatch) : Prop :=
  mt.2.1 <> [] /\ Forall (fun c => isdigit c = true) mt.2.1
  /\ Forall (fun c => c <> "["%char) mt.2.2.

(** The ids recorded on the current entity stand as tags in its biography
    buffer, and the connections of a saved entity are among the tags of its
    biography. *)
Definition recorded (st : state) : Prop :=
  map_Forall (fun _ e => connections e ⊆ tag_ids (biography e)) (scientists st)
  /\ forall c, current_scientist st = Some c ->
       forall n, n ∈ connections c ->
         (0 <= n)%Z /\ exists a b, current_biography st = a ++ tag_of n ++ b.

(** [Store] against [Parser]: the buffers agree, the current object of the
    store is the current scientist, and an entry of the map is the current
    object, stored under its id, or an object equal to the copy. *)
Definition agrees (hs : Store.state) (st : state) : Prop :=
  Store.current_biography hs = current_biography st
  /\ match Store.current_scientist hs with
     | Some a => exists c, Store.objects hs !! a = Some c
                           /\ current_scientist st = Some c
     | None => current_scientist st = None
     end
  /\ forall k,
       match Store.scientists hs !! k with
       | Some a =>
           (Store.current_scientist hs = Some a
            /\ (exists c, Store.objects hs !! a = Some c /\ id c = k)
            /\ is_Some (scientists st !! k))
           \/ (Store.current_scientist hs <> Some a
               /\ exists e, Store.objects hs !! a = Some e
                            /\ scientists st !! k = Some e)
       | None => scientists st !! k = None
       end.

(** Every entry of the map is an object equal to the copy. *)
Definition synced (hs : Store.state) (st : state) : Prop :=
  forall k,
    match Store.scientists hs !! k with
    | Some a => exists e, Store.objects hs !! a = Some e
                          /\ scientists st !! k = Some e
    | None => scientists st !! k = None
    end.


(** [int] from an accumulator that holds the digits read so far. *)
Definition int_acc (a : Z) (ds : text) : Z :=
  fold_left (fun acc c => 10 * acc + digit_value c)%Z ds a.

(** A non-empty run of characters without a blank. *)
Definition solid (w : text) : Prop :=
  w <> [] /\ Forall (fun c => isspace c = false) w.

(** The last span of an id, with everything the parser takes from it. *)
Module LastSpan.

(** The ids of the tags of a run of references. *)
Definition ref_ids (refs : list rmatch) : gset Z :=
  list_to_set ((fun r => int r.2.1) <$> refs).

(** The match starts an entity with id [k]. *)
Definition starts_id (k : Z) (mt : rmatch) : Prop :=
  is_entity mt /\ int mt.2.1 = k.

(** [e] is what the loop builds from the span of [m] and [refs], the page
    number apart. *)
Definition built (m : rmatch) (refs : list rmatch) (e : Scientist) : Prop :=
  id e = int m.2.1
  /\ name e = entity_name m
  /\ biography e = normalize (buffer_of m refs)
  /\ connections e = ref_ids refs.

(** [e] is built from the last span of the matches [ms] that starts an
    entity with id [k]. *)
Definition span_last (ms : list rmatch) (k : Z) (e : Scientist) : Prop :=
  exists pre m refs post,
    ms = pre ++ m :: refs ++ post
    /\ starts_id k m
    /\ Forall (fun r => ~ is_entity r) refs
    /\ match post with [] => True | m' :: _ => is_entity m' end
    /\ Forall (fun r => ~ starts_id k r) post
    /\ built m refs e.

Definition closed_last (ms : list rmatch) (k : Z) (e : Scientist) : Prop :=
  exists pre m refs m' post,
    ms = pre ++ m :: refs ++ m' :: post
    /\ starts_id k m
    /\ Forall (fun r => ~ is_entity r) refs
    /\ is_entity m'
    /\ Forall (fun r => ~ starts_id k r) (m' :: post)
    /\ built m refs e.

Definition open_last (ms : list rmatch) (st : state) : Prop :=
  forall c, current_scientist st = Some c ->
    exists pre m refs,
      ms = pre ++ m :: refs
      /\ is_entity m
      /\ Forall (fun r => ~ is_entity r) refs
      /\ id c = int m.2.1
      /\ name c = entity_name m
      /\ connections c = ref_ids refs
      /\ current_biography st = buffer_of m refs.

(** The invariant of the loop after the matches [ms]: an entry of the map
    is the current entity or comes from the last closed span of its id; the
    current entity comes from the open span; every id that started an
    entity is a key of the map or the id of the current entity. *)
Definition inv_last (ms : list rmatch) (st : state) : Prop :=
  (forall k e, scientists st !! k = Some e -> pending st k \/ closed_last ms k e)
  /\ open_last ms st
  /\ (forall m, m ∈ ms -> is_entity m ->
        is_Some (scientists st !! int m.2.1) \/ pending st (int m.2.1)).

End LastSpan.
Import LastSpan.

(** Every blank of the text is one space, and no blank follows it. *)
Fixpoint single_spaced (s : text) : bool :=
  match s with
  | [] => true
  | c :: s' =>
      (if isspace c
       then Ascii.eqb c " "%char
            && match s' with d :: _ => negb (isspace d) | [] => true end
       else true)
      && single_spaced s'
  end.

(** Every opening bracket of the text starts the tag [[n]] of an id [n] of
    [C], written as the parser writes it. *)
Definition all_tags (C : gset Z) (s : text) : Prop :=
  forall a b, s = a ++ "["%char :: b ->
    exists n b', n ∈ C /\ (0 <= n)%Z /\ b = repr n ++ "]"%char :: b'.

(** What the page with the 0-based index [idx] gives to the aggregated
    text: nothing for a page without words, the page marker and the text
    of the page otherwise. *)
Definition contribution (idx : Z) (p : Page) : text :=
  match extract_words p with
  | Ok (w :: ws) => page_header idx ++ layout (w :: ws) (width p)
  | _ => []
  end.

(** The token fetch of the page does not raise. *)
Definition readable (p : Page) : Prop := exists ws, extract_words p = Ok ws.

(** * Worked inputs *)

(** A token with integer coordinates. *)
Definition word (s : string) (x y : Z) : Word := mkWord (str s) (Qc_of_Z x) (Qc_of_Z y).

(** Example 1 of the specification. *)
Definition example1 : text :=
  str "[1] THALES was a philosopher. [2] later influenced [1] again.".

(** A page that carries Example 1 in one column, under a header line. *)
Definition example1_page : Page :=
  mkPage (Ok [word "ASIMOV" 72 0; word "[1]" 72 10; word "THALES" 72 20;
              word "was" 72 30; word "a" 72 40; word "philosopher." 72 50;
              word "[2]" 72 60; word "later" 72 70; word "influenced" 72 80;
              word "[1]" 72 90; word "again." 72 100])
         (Qc_of_Z 612).

(** Example 2 of the specification. *)
Definition example2 : text := str "[3] THALES bio text [4] SOLON bio text".

(** Example 3 of the specification: a reference to an id that no entity
    has. *)
Definition example3 : text := str "[1] THALES taught [99] geometry".

(** A document of two pages, with a header line and one entry on each. *)
Definition page_one : Page :=
  mkPage (Ok [word "ASIMOV" 10 0; word "[1]" 10 10; word "THALES" 40 10;
              word "sage" 10 20; word "of" 300 10; word "Miletus" 300 20])
         (Qc_of_Z 612).

Definition page_two : Page :=
  mkPage (Ok [word "ASIMOV" 10 0; word "[2]" 10 10; word "SOLON" 40 10;
              word "lawgiver" 10 20; word "of" 300 10; word "Athens" 300 20])
         (Qc_of_Z 612).

(** The text that the aggregator makes of the two pages. *)
Definition two_pages : text :=
  [nl] ++ str "---PAGE_1---" ++ [nl] ++ str "[1] THALES sage" ++ [nl; nl] ++ str "of Miletus"
  ++ [nl] ++ str "---PAGE_2---" ++ [nl] ++ str "[2] SOLON lawgiver" ++ [nl; nl] ++ str "of Athens".

(** A page whose token fetch raises. *)
Definition broken_page : Page := mkPage (Raise (str "unreadable")) (Qc_of_Z 612).

(** A page without tokens. *)
Definition blank_page : Page := mkPage (Ok []) (Qc_of_Z 612).

(** Example 4 of the specification: a header line and two clusters of
    tokens with left edges 10, 12, 14 and 200, 202, 205. *)
Definition example4_words : list Word :=
  [word "ASIMOV" 10 0;
   word "one" 10 10; word "four" 200 10; word "two" 12 20;
   word "five" 202 20; word "three" 14 30; word "six" 205 30].

(** An id that starts an entity twice, a reference in front of the first
    entity and a bare tag at the end. *)
Definition example5 : text :=
  str "[9] see [1] THALES first [2] SOLON law [07] more [1] THALES second [3]".

(** * Properties *)

(** ** Characters and literals *)

Lemma eat_Some lit s r : eat lit s = Some r <-> s = lit ++ r.
Proof.
  revert s; induction lit as [|a lit IH]; intros s; simpl.
  - split; [intros [= ->] | intros ->]; reflexivity.
  - destruct s as [|b s]; [split; discriminate|].
    destruct (Ascii.eqb_spec a b) as [->|Hne].
    + rewrite IH. split; [intros -> | intros [= ->]]; reflexivity.
    + split; [discriminate | intros [= E _]; congruence].
Qed.

Lemma eat_app lit r : eat lit (lit ++ r) = Some r.
Proof. apply eat_Some; reflexivity. Qed.

Lemma span_app p s : (span p s).1 ++ (span p s).2 = s.
Proof.
  induction s as [|c s IH]; simpl; [reflexivity|].
  destruct (p c); [|reflexivity].
  destruct (span p s) as [a b]; simpl in *. by rewrite IH.
Qed.

Lemma span_all p s : Forall (fun c => p c = true) (span p s).1.
Proof.
  induction s as [|c s IH]; simpl; [constructor|].
  destruct (p c) eqn:E; [|constructor].
  destruct (span p s) as [a b]; simpl in *. by constructor.
Qed.

Lemma span_stop p s : match (span p s).2 with [] => True | c :: _ => p c = false end.
Proof.
  induction s as [|c s IH]; simpl; [exact I|].
  destruct (p c) eqn:E; [|simpl; exact E].
  destruct (span p s) as [a b]; simpl in *. exact IH.
Qed.

(** The greedy class takes exactly [a] when [a] is in the class and what
    follows starts outside it. *)
Lemma span_exact p a b :
  Forall (fun c => p c = true) a ->
  match b with [] => True | c :: _ => p c = false end ->
  span p (a ++ b) = (a, b).
Proof.
  intros Ha Hb. induction Ha as [|c a Hc Ha IH]; simpl.
  - destruct b as [|c b]; [reflexivity|]. simpl. by rewrite Hb.
  - by rewrite Hc, IH.
Qed.

Lemma span_spec p s a b :
  span p s = (a, b) <->
  s = a ++ b /\ Forall (fun c => p c = true) a
  /\ match b with [] => True | c :: _ => p c = false end.
Proof.
  split.
  - intros E. pose proof (span_app p s) as H1. pose proof (span_all p s) as H2.
    pose proof (span_stop p s) as H3. rewrite E in H1, H2, H3. simpl in *. done.
  - intros (-> & Ha & Hb). by apply span_exact.
Qed.

Lemma digits_then_Some close s ds r :
  match close with [] => False | c :: _ => isdigit c = false end ->
  digits_then close s = Some (ds, r) <->
  s = ds ++ close ++ r /\ ds <> [] /\ Forall (fun c => isdigit c = true) ds.
Proof.
  intros Hclose. unfold digits_then. split.
  - destruct (span isdigit s) as [a b] eqn:E. apply span_spec in E as (-> & Ha & Hb).
    destruct a as [|c a]; [discriminate|].
    destruct (eat close b) as [r'|] eqn:E; [|discriminate].
    apply eat_Some in E as ->. intros [= <- <-]. done.
  - intros (-> & Hne & Hds).
    rewrite (span_exact isdigit ds (close ++ r)); [|done|].
    + destruct ds; [done|]. by rewrite eat_app.
    + destruct close; [done|]. exact Hclose.
Qed.

(** ** The scan engine *)

Section ScanFacts.
Context {M : Type} (try_match : text -> option (M * text)).
(** Every pattern of the program consumes at least one character. *)
Hypothesis shrinks : forall s m r, try_match s = Some (m, r) -> length r < length s.

Lemma scan_fuel fuel pos s :
  length s <= fuel -> scan try_match fuel pos s = scan_from try_match pos s.
Proof.
  unfold scan_from. remember (length s) as n eqn:Hn.
  revert fuel pos s Hn. induction (lt_wf n) as [n _ IH]. intros fuel pos s -> Hle.
  destruct s as [|c s]; [by destruct fuel|].
  destruct fuel as [|fuel]; [simpl in Hle; lia|]. simpl.
  destruct (try_match (c :: s)) as [[m r]|] eqn:E.
  - apply shrinks in E. simpl in *. f_equal.
    rewrite (IH (length r)) by (lia || done).
    symmetry. apply (IH (length r)); (lia || done).
  - f_equal. simpl in *. apply (IH (length s)); (lia || done).
Qed.

Lemma scan_from_hit pos s m r :
  try_match s = Some (m, r) ->
  scan_from try_match pos s
  = Hit pos m :: scan_from try_match (pos + (length s - length r)) r.
Proof.
  intros E. pose proof (shrinks _ _ _ E) as Hlt.
  destruct s as [|c s]; [simpl in Hlt; lia|].
  unfold scan_from at 1. simpl. rewrite E. f_equal.
  apply scan_fuel. simpl in Hlt. lia.
Qed.

Lemma scan_from_miss pos c s :
  try_match (c :: s) = None ->
  scan_from try_match pos (c :: s) = Lit c :: scan_from try_match (S pos) s.
Proof. intros E. unfold scan_from. simpl. by rewrite E. Qed.
End ScanFacts.

(** ** The worked inputs, evaluated *)

(** C1, at Example 1 of the specification: the trailing [[1]] is recorded
    while THALES (id 1) is the current entry, and after the resolver has run
    the connection set of entity 1 is {1, 2}: it contains the entity's own
    id.  The same holds on the text aggregated from a page that carries the
    example. *)
Lemma C1_self_reference_survives :
  (exists e,
     extract_connections (parse_scientist_entries example1) !! 1%Z = Some e
     /\ id e = 1%Z /\ name e = str "THALES"
     /\ connections e = {[1%Z; 2%Z]}
     /\ id e ∈ connections e)
  /\ extract_text_from_pdf (Ok [example1_page]) 1 1
     = [nl] ++ str "---PAGE_1---" ++ [nl; nl; nl] ++ example1
  /\ (exists e,
        extract_connections
          (parse_scientist_entries (extract_text_from_pdf (Ok [example1_page]) 1 1))
          !! 1%Z = Some e
        /\ id e = 1%Z /\ connections e = {[1%Z; 2%Z]}).
Proof.
  split; [|split].
  - eexists. split; [vm_compute; reflexivity|].
    repeat split; vm_compute; reflexivity.
  - vm_compute. reflexivity.
  - eexists. split; [vm_compute; reflexivity|].
    split; vm_compute; reflexivity.
Qed.

(** C3, on the text aggregated from a document of two pages: the tag [[2]]
    of SOLON stands at offset 55, behind the marker of page 2, yet the entry
    is saved with the page number of the first marker of the aggregate. *)
Lemma C3_page_of_first_marker :
  extract_text_from_pdf (Ok [page_one; page_two]) 1 2 = two_pages
  /\ drop 55 two_pages = str "[2] SOLON lawgiver" ++ [nl; nl] ++ str "of Athens"
  /\ nearest_preceding_page two_pages 55 = 2%Z
  /\ exists e, parse_scientist_entries two_pages !! 2%Z = Some e
       /\ name e = str "SOLON" /\ page_number e = 1%Z.
Proof.
  repeat split; try (vm_compute; reflexivity).
  eexists. split; [vm_compute; reflexivity|]. split; vm_compute; reflexivity.
Qed.

(** C4 fails: with page 2 unreadable the whole aggregate is empty, whereas
    a page 2 that contributes empty text leaves the text of page 1. *)
Lemma C4_one_bad_page_empties_the_run :
  extract_text_from_pdf (Ok [page_one; broken_page]) 1 2 = []
  /\ extract_text_from_pdf (Ok [page_one; blank_page]) 1 2
     = [nl] ++ str "---PAGE_1---" ++ [nl] ++ str "[1] THALES sage" ++ [nl; nl] ++ str "of Miletus"
  /\ extract_text_from_pdf (Ok [page_one; broken_page]) 1 2
     <> extract_text_from_pdf (Ok [page_one; blank_page]) 1 2.
Proof. do 2 (split; [vm_compute; reflexivity|]). vm_compute. discriminate. Qed.



(** ** The classification of a match *)


Lemma entity_like_test w :
  (2 <=? count isupper w) && (2 <? length w) = true <-> entity_like w.
Proof.
  unfold entity_like. rewrite andb_true_iff, Nat.leb_le, Nat.ltb_lt. done.
Qed.

Lemma entity_like_dec w : {entity_like w} + {~ entity_like w}.
Proof.
  destruct ((2 <=? count isupper w) && (2 <? length w)) eqn:E.
  - left. by apply entity_like_test.
  - right. rewrite <- entity_like_test, E. discriminate.
Qed.

(** The three branches of the loop body. *)
Lemma step_empty txt st start g1 g2 :
  split (strip g2) = [] ->
  step txt st (start, (g1, g2))
  = record_reference (int g1) (str " [" ++ repr (int g1) ++ str "]") st.
Proof. intros E. unfold step. by rewrite E. Qed.

Lemma step_entity txt st start g1 g2 w rest :
  split (strip g2) = w :: rest -> entity_like w ->
  step txt st (start, (g1, g2))
  = mkState (scientists (save txt (Z.of_nat start) st))
            (Some (mkScientist (int g1) w [] 0 ∅)) (join (str " ") rest).
Proof.
  intros E Hw. apply entity_like_test in Hw. unfold step. rewrite E, Hw.
  f_equal. by destruct rest.
Qed.

Lemma step_reference txt st start g1 g2 w rest :
  split (strip g2) = w :: rest -> ~ entity_like w ->
  step txt st (start, (g1, g2))
  = record_reference (int g1)
      (str " [" ++ repr (int g1) ++ str "] " ++ strip g2)
      (save txt (Z.of_nat start) st).
Proof.
  intros E Hw. rewrite <- entity_like_test in Hw. unfold step. rewrite E.
  by destruct ((2 <=? count isupper w) && (2 <? length w)).
Qed.


(** ** The page aggregator *)

Lemma pages_loop_raises pages start_idx k page msg :
  (start_idx + k < Z.of_nat (length pages))%Z ->
  index pages (start_idx + k) = Ok page ->
  extract_words page = Raise msg ->
  forall n i full_text,
    (i <= k < i + Z.of_nat n)%Z ->
    exists msg', pages_loop pages start_idx i n full_text = Raise msg'.
Proof.
  intros Hin Hpage Hwords. induction n as [|n IH]; intros i full_text Hk; [lia|].
  simpl. destruct (Z.leb_spec (Z.of_nat (length pages)) (start_idx + i)) as [Hge|Hlt]; [lia|].
  destruct (decide (i = k)) as [->|Hne].
  - rewrite Hpage. simpl. unfold extract_text_in_columns. rewrite Hwords. simpl. eauto.
  - destruct (index pages (start_idx + i)) as [p|e]; simpl; [|eauto].
    destruct (extract_text_in_columns p) as [t|e]; simpl; [|eauto].
    apply IH. lia.
Qed.

(** C4, as the code has it: one page of the range whose token fetch raises
    makes [extract_text_from_pdf] return the empty text for the whole run,
    the same result as for a document that cannot be opened. *)
Theorem C4_fetch_failure_discards_run (pages : list Page)
    (start_page num_pages k : Z) (page : Page) (msg : text) :
  (0 <= k < num_pages)%Z ->
  (start_page - 1 + k < Z.of_nat (length pages))%Z ->
  index pages (start_page - 1 + k) = Ok page ->
  extract_words page = Raise msg ->
  extract_text_from_pdf (Ok pages) start_page num_pages = []
  /\ forall msg', extract_text_from_pdf (Raise msg') start_page num_pages = [].
Proof.
  intros Hk Hin Hpage Hwords. split; [|reflexivity].
  unfold extract_text_from_pdf. simpl.
  destruct (pages_loop_raises pages (start_page - 1) k page msg Hin Hpage Hwords
              (Z.to_nat num_pages) 0%Z []) as [msg' ->]; [lia|reflexivity].
Qed.

Lemma C4_fetch_failure_discards_run_witness :
  extract_text_from_pdf (Ok [page_one; broken_page]) 1 2 = []
  /\ forall msg', extract_text_from_pdf (Raise msg') 1 2 = [].
Proof.
  apply (C4_fetch_failure_discards_run [page_one; broken_page] 1 2 1
           broken_page (str "unreadable")).
  - lia.
  - simpl. lia.
  - reflexivity.
  - reflexivity.
Defined.

(** ** Searching a pattern *)

Section SearchFacts.
Context {M : Type} (try_match : text -> option (M * text)).


End SearchFacts.

Lemma page_marker_Some s ds r :
  page_marker s = Some (ds, r) <->
  s = str "---PAGE_" ++ ds ++ str "---" ++ r
  /\ ds <> [] /\ Forall (fun c => isdigit c = true) ds.
Proof.
  unfold page_marker. destruct (eat (str "---PAGE_") s) as [r1|] eqn:E.
  - apply eat_Some in E as ->. rewrite digits_then_Some by reflexivity.
    split; [intros (-> & ? & ?); done|].
    intros (E & ? & ?). apply app_inv_head in E. done.
  - split; [discriminate|]. intros (-> & _). by rewrite eat_app in E.
Qed.

Lemma page_marker_app a b ds r :
  page_marker a = Some (ds, r) -> page_marker (a ++ b) = Some (ds, r ++ b).
Proof.
  rewrite !page_marker_Some. intros (-> & ? & ?). split; [|done].
  by rewrite <- !app_assoc.
Qed.


Lemma slice_to_take txt k : exists n, slice_to txt k = take n txt.
Proof. unfold slice_to. destruct (k <? 0)%Z; eauto. Qed.


(** ** The bracket pattern *)

(** Lists that differ in the nesting of [++] and [::]. *)
Ltac reassoc :=
  repeat first [ progress cbn [app str list_ascii_of_string]
               | rewrite <- app_assoc ];
  try reflexivity.

Lemma ref_tag_Some s ds r :
  ref_tag s = Some (ds, r) <->
  s = "["%char :: ds ++ "]"%char :: r
  /\ ds <> [] /\ Forall (fun c => isdigit c = true) ds.
Proof.
  unfold ref_tag. destruct (eat (str "[") s) as [r1|] eqn:E.
  - apply eat_Some in E as ->. rewrite digits_then_Some by reflexivity.
    split; [intros (-> & ? & ?); done|].
    intros (E & ? & ?). simplify_eq/=. done.
  - split; [discriminate|]. intros (-> & _).
    change ("["%char :: ds ++ "]"%char :: r) with (str "[" ++ (ds ++ "]"%char :: r)) in E.
    by rewrite eat_app in E.
Qed.

Lemma bracket_pattern_Some s ds t r :
  bracket_pattern s = Some ((ds, t), r) <->
  s = "["%char :: ds ++ "]"%char :: t ++ r
  /\ ds <> [] /\ Forall (fun c => isdigit c = true) ds
  /\ Forall (fun c => c <> "["%char) t
  /\ match r with [] => True | c :: _ => c = "["%char end.
Proof.
  unfold bracket_pattern. destruct (ref_tag s) as [[ds' r']|] eqn:E.
  - apply ref_tag_Some in E as (-> & Hne & Hds).
    destruct (span (fun c => negb (Ascii.eqb c "[")) r') as [t' r''] eqn:Es.
    apply span_spec in Es as (-> & Ht & Hr). split.
    + intros [= -> -> ->]. split_and!; try done.
      * eapply Forall_impl; [exact Ht|]. intros c Hc ->. discriminate.
      * destruct r as [|c r]; [done|]. simpl in Hr.
        apply negb_false_iff in Hr. by apply Ascii.eqb_eq.
    + intros (Es & _ & Hds' & Ht' & Hr').
      assert (Hsame : ds' = ds /\ t' ++ r'' = t ++ r).
      { clear -Es Hds Hds'. injection Es as Es. revert ds Hds' Es.
        induction Hds as [|d ds' Hd _ IH]; intros [|e ds] Hds' Es; simplify_eq/=.
        - done.
        - by inv Hds'.
        - inv Hds'. destruct (IH ds) as [-> ?]; done. }
      destruct Hsame as [-> Hsame].
      assert (Hspan : span (fun c => negb (Ascii.eqb c "[")) (t ++ r) = (t, r)).
      { apply span_exact.
        - eapply Forall_impl; [exact Ht'|]. intros c Hc. simpl.
          apply negb_true_iff. by apply Ascii.eqb_neq.
        - destruct r as [|c r]; [done|]. subst c. reflexivity. }
      rewrite <- Hsame in Hspan.
      rewrite (span_exact _ t' r'' Ht Hr) in Hspan. by simplify_eq.
  - split; [discriminate|]. intros (-> & Hne & Hds & _).
    assert (ref_tag ("["%char :: ds ++ "]"%char :: t ++ r) = Some (ds, t ++ r))
      by (by apply ref_tag_Some).
    congruence.
Qed.

Lemma blanks_Some s ws r :
  blanks s = Some (ws, r) <->
  s = ws ++ r /\ ws <> [] /\ Forall (fun c => isspace c = true) ws
  /\ match r with [] => True | c :: _ => isspace c = false end.
Proof.
  unfold blanks. destruct (span isspace s) as [a b] eqn:E.
  apply span_spec in E as (-> & Ha & Hb). split.
  - destruct a; [discriminate|]. intros [= <- <-]. done.
  - intros (E & Hne & Hws & Hr).
    assert (Hspan : span isspace (a ++ b) = (a, b)) by (by apply span_exact).
    rewrite E, (span_exact _ ws r Hws Hr) in Hspan. simplify_eq.
    by destruct a.
Qed.

Lemma blanks_shrinks s m r : blanks s = Some (m, r) -> length r < length s.
Proof.
  intros (-> & Hne & _)%blanks_Some. rewrite length_app.
  destruct m; [done|]. simpl. lia.
Qed.

Lemma ref_tag_shrinks s m r : ref_tag s = Some (m, r) -> length r < length s.
Proof.
  intros (-> & _)%ref_tag_Some. simpl. rewrite length_app. simpl. lia.
Qed.

Lemma bracket_pattern_shrinks s m r :
  bracket_pattern s = Some (m, r) -> length r < length s.
Proof.
  destruct m as [ds t]. intros (-> & _)%bracket_pattern_Some.
  simpl. rewrite !length_app. simpl. rewrite length_app. lia.
Qed.

Lemma digits_then_shrinks close s ds r :
  digits_then close s = Some (ds, r) -> length r < length s.
Proof.
  unfold digits_then. destruct (span isdigit s) as [a b] eqn:E.
  apply span_spec in E as (-> & _ & _). destruct a as [|c a]; [discriminate|].
  destruct (eat close b) as [r'|] eqn:Eb; [|discriminate].
  apply eat_Some in Eb as ->. intros [= _ <-].
  simpl. rewrite !length_app. lia.
Qed.

Lemma page_line_shrinks s m r : page_line s = Some (m, r) -> length r < length s.
Proof.
  unfold page_line. destruct (eat _ s) as [r1|] eqn:E; [|discriminate].
  apply eat_Some in E as ->. intros H%digits_then_shrinks.
  rewrite length_app. lia.
Qed.

Lemma page_marker_shrinks s m r : page_marker s = Some (m, r) -> length r < length s.
Proof.
  unfold page_marker. destruct (eat _ s) as [r1|] eqn:E; [|discriminate].
  apply eat_Some in E as ->. intros H%digits_then_shrinks.
  rewrite length_app. lia.
Qed.

(** [length s] rounds are enough for every pattern of the program: more
    rounds give the same items. *)
Lemma scan_enough s fuel pos :
  length s <= fuel ->
  scan page_line fuel pos s = scan_from page_line pos s
  /\ scan blanks fuel pos s = scan_from blanks pos s
  /\ scan bracket_pattern fuel pos s = scan_from bracket_pattern pos s
  /\ scan page_marker fuel pos s = scan_from page_marker pos s
  /\ scan ref_tag fuel pos s = scan_from ref_tag pos s.
Proof.
  intros Hle. split_and!.
  - by apply scan_fuel, Hle; apply page_line_shrinks.
  - by apply scan_fuel, Hle; apply blanks_shrinks.
  - by apply scan_fuel, Hle; apply bracket_pattern_shrinks.
  - by apply scan_fuel, Hle; apply page_marker_shrinks.
  - by apply scan_fuel, Hle; apply ref_tag_shrinks.
Qed.

(** The matches of [re.finditer] are pieces of the text, in the order of the
    text and without overlap. *)
Lemma scan_bracket_layout s pos :
  let ms := hits (scan_from bracket_pattern pos s) in
  Forall (fun mt => tag_match mt /\ pos <= mt.1 /\ match_end mt <= pos + length s
                    /\ take (length (match_text mt)) (drop (mt.1 - pos) s)
                       = match_text mt) ms
  /\ StronglySorted (fun a b => match_end a <= b.1) ms.
Proof.
  remember (length s) as n eqn:Hn. revert s pos Hn.
  induction (lt_wf n) as [n _ IH]. intros s pos ->.
  destruct s as [|c s]; [split; constructor|].
  destruct (bracket_pattern (c :: s)) as [[[ds t] r]|] eqn:E.
  - rewrite (scan_from_hit _ bracket_pattern_shrinks _ _ _ _ E).
    pose proof (bracket_pattern_shrinks _ _ _ E) as Hlt.
    apply bracket_pattern_Some in E as (E & Hne & Hds & Ht & _).
    assert (Hlen : length (c :: s) - length r
                   = length (match_text (pos, (ds, t)))).
    { rewrite E. unfold match_text. simpl. rewrite !length_app. simpl.
      rewrite length_app. lia. }
    rewrite Hlen. simpl hits.
    destruct (IH (length r) Hlt r (pos + length (match_text (pos, (ds, t)))) eq_refl)
      as [Hall Hsorted].
    assert (Hs : c :: s = match_text (pos, (ds, t)) ++ r).
    { rewrite E. unfold match_text. simpl. reassoc. }
    split.
    + constructor.
      * split; [done|]. split; [done|]. unfold match_end. split; [simpl in *; lia|].
        cbn [fst]. rewrite Nat.sub_diag. simpl drop. rewrite Hs.
        by rewrite take_app_length.
      * eapply Forall_impl; [exact Hall|]. intros mt (? & ? & ? & Htake).
        split; [done|]. split; [lia|]. split; [lia|].
        rewrite Hs, drop_app_ge by lia.
        replace (mt.1 - pos - length (match_text (pos, (ds, t))))
          with (mt.1 - (pos + length (match_text (pos, (ds, t))))) by lia.
        exact Htake.
    + constructor; [done|].
      eapply Forall_impl; [exact Hall|]. intros mt (_ & ? & _). done.
  - rewrite (scan_from_miss _ _ _ _ E). simpl hits.
    destruct (IH (length s) ltac:(simpl; lia) s (S pos) eq_refl) as [Hall Hsorted].
    split; [|done].
    eapply Forall_impl; [exact Hall|]. intros mt (? & ? & ? & Htake).
    split; [done|]. split; [lia|]. split; [simpl; lia|].
    replace (mt.1 - pos) with (S (mt.1 - S pos)) by lia. exact Htake.
Qed.

Lemma finditer_bracket_layout s :
  let ms := finditer bracket_pattern s in
  Forall (fun mt => tag_match mt
                    /\ take (length (match_text mt)) (drop mt.1 s) = match_text mt) ms
  /\ StronglySorted (fun a b => match_end a <= b.1) ms.
Proof.
  destruct (scan_bracket_layout s 0) as [Hall Hsorted]. split; [|done].
  eapply Forall_impl; [exact Hall|]. intros mt (? & _ & _ & Htake).
  split; [done|]. by rewrite Nat.sub_0_r in Htake.
Qed.

(** ** Invariants of the entry parser *)

Section LoopInvariant.
Variable txt : text.
Variable P : state -> Prop.
Hypothesis P_save : forall stop st, P st -> P (save txt stop st).
Hypothesis P_reference : forall g1 tail st,
  Forall (fun c => isdigit c = true) g1 ->
  P st ->
  P (record_reference (int g1) (str " [" ++ repr (int g1) ++ str "]" ++ tail) st).
Hypothesis P_entity : forall st n w bio,
  P st -> P (mkState (scientists st) (Some (mkScientist n w [] 0 ∅)) bio).

Lemma step_invariant st mt : tag_match mt -> P st -> P (step txt st mt).
Proof using P_save P_reference P_entity.
  destruct mt as [start [g1 g2]]. intros (_ & Hds & _) H. simpl in Hds.
  destruct (split (strip g2)) as [|w rest] eqn:Hwords.
  - rewrite (step_empty _ _ _ _ _ Hwords).
    specialize (P_reference g1 [] st Hds H). by rewrite app_nil_r in P_reference.
  - destruct (entity_like_dec w) as [Hlike|Hlike].
    + rewrite (step_entity _ _ _ _ _ _ _ Hwords Hlike).
      apply (P_entity (save txt (Z.of_nat start) st)). by apply P_save.
    + rewrite (step_reference _ _ _ _ _ _ _ Hwords Hlike).
      exact (P_reference g1 (" "%char :: strip g2) _ Hds (P_save _ _ H)).
Qed.

Lemma loop_invariant ms st : Forall tag_match ms -> P st -> P (loop txt ms st).
Proof using P_save P_reference P_entity.
  intros Hms. revert st. induction Hms as [|mt ms Hmt _ IH]; intros st H; [exact H|].
  apply IH. by apply step_invariant.
Qed.

Lemma run_invariant : P initial -> P (run txt).
Proof using P_save P_reference P_entity.
  intros H. unfold run, finish. apply P_save. apply loop_invariant; [|done].
  destruct (finditer_bracket_layout (clean txt)) as [Hall _].
  eapply Forall_impl; [exact Hall|]. by intros mt [? _].
Qed.
End LoopInvariant.

(** Entities are stored under their own id. *)
Lemma parse_keyed txt : keyed (parse_scientist_entries txt).
Proof.
  apply (run_invariant txt (fun st => keyed (scientists st))).
  - intros stop st H. unfold save. destruct (current_scientist st); [|exact H].
    simpl. by apply map_Forall_insert_2.
  - intros g1 tail st _ H. unfold record_reference.
    by destruct (current_scientist st).
  - intros st n w bio H. exact H.
  - apply map_Forall_empty.
Qed.



(** ** The store and the copies *)

Lemma synced_agrees hs st :
  synced hs st ->
  Store.current_biography hs = current_biography st ->
  match Store.current_scientist hs with
  | Some a => exists c, Store.objects hs !! a = Some c /\ current_scientist st = Some c
  | None => current_scientist st = None
  end ->
  (forall k a, Store.scientists hs !! k = Some a ->
               Store.current_scientist hs = Some a ->
               exists c, Store.objects hs !! a = Some c /\ id c = k) ->
  agrees hs st.
Proof.
  intros Hsync Hbio Hcur Hkey. split; [done|]. split; [done|].
  intros k. specialize (Hsync k). specialize (Hkey k).
  destruct (Store.scientists hs !! k) as [a|]; [|done].
  destruct Hsync as (e & He & Hk).
  destruct (decide (Store.current_scientist hs = Some a)) as [Ha|Ha].
  - left. split; [done|]. split; [by apply Hkey|]. by rewrite Hk.
  - right. split; [done|]. eauto.
Qed.

Lemma agrees_save txt stop hs st :
  agrees hs st ->
  agrees (Store.save txt stop hs) (save txt stop st)
  /\ synced (Store.save txt stop hs) (save txt stop st).
Proof.
  intros H. pose proof H as (Hbio & Hcur & Hmap). unfold Store.save, save.
  destruct (Store.current_scientist hs) as [a|] eqn:Ea.
  - clear H. destruct Hcur as (c & Hc & ->). rewrite list_lookup_alter_eq, Hc, Hbio.
    cbn [fmap option_fmap option_map].
    set (F := fun cur => set_biography (normalize (current_biography st))
                           (set_page_number (page_of txt stop) cur)).
    change (set_biography (normalize (current_biography st))
              (set_page_number (page_of txt stop) c)) with (F c).
    change (id (F c)) with (id c).
    assert (Hsync : synced
              (Store.mkState (alter F a (Store.objects hs))
                 (<[id c := a]> (Store.scientists hs)) (Some a)
                 (current_biography st))
              (mkState (<[id c := F c]> (scientists st)) (Some (F c))
                 (current_biography st))).
    { intros k. cbn [Store.scientists Store.objects scientists].
      destruct (decide (id c = k)) as [<-|Hne].
      - rewrite !lookup_insert_eq. exists (F c).
        by rewrite list_lookup_alter_eq, Hc.
      - rewrite !lookup_insert_ne by done. specialize (Hmap k).
        destruct (Store.scientists hs !! k) as [a'|]; [|done].
        destruct Hmap as [([= <-] & (c0 & Hc0 & Hid) & _)|(Hne' & e & He & Hk)].
        + congruence.
        + exists e. rewrite list_lookup_alter_ne by congruence. done. }
    split; [|exact Hsync]. apply synced_agrees; [done|done| |].
    + cbn [Store.current_scientist Store.objects current_scientist].
      exists (F c). by rewrite list_lookup_alter_eq, Hc.
    + cbn [Store.current_scientist Store.objects Store.scientists].
      intros k a' Hk [= <-]. exists (F c).
      rewrite list_lookup_alter_eq, Hc. split; [done|].
      destruct (decide (id c = k)) as [|Hne]; [done|].
      rewrite lookup_insert_ne in Hk by done. specialize (Hmap k).
      rewrite Hk in Hmap.
      destruct Hmap as [(_ & (c0 & Hc0 & Hid) & _)|(Hne' & _)]; congruence.
  - rewrite Hcur. split; [exact H|].
    intros k. specialize (Hmap k).
    destruct (Store.scientists hs !! k) as [a'|]; [|done].
    destruct Hmap as [([=] & _)|(_ & He)]; done.
Qed.

Lemma agrees_reference n piece hs st :
  agrees hs st ->
  agrees (Store.record_reference n piece hs) (record_reference n piece st).
Proof.
  intros H. pose proof H as (Hbio & Hcur & Hmap).
  unfold Store.record_reference, record_reference.
  destruct (Store.current_scientist hs) as [a|] eqn:Ea.
  - clear H. destruct Hcur as (c & Hc & ->). split; [by rewrite <- Hbio|]. split.
    + cbn [Store.current_scientist Store.objects current_scientist].
      exists (add_connection n c). by rewrite list_lookup_alter_eq, Hc.
    + intros k. cbn [Store.current_scientist Store.objects Store.scientists scientists].
      specialize (Hmap k). destruct (Store.scientists hs !! k) as [a'|]; [|done].
      destruct Hmap as [([= <-] & (c0 & Hc0 & Hid) & Hk)|(Hne & e & He & Hk)].
      * left. split; [done|]. split; [|done]. exists (add_connection n c).
        rewrite list_lookup_alter_eq, Hc. split; [done|]. simpl. congruence.
      * right. split; [done|]. exists e.
        rewrite list_lookup_alter_ne by congruence. done.
  - by rewrite Hcur.
Qed.

(** A new object on a store whose entries all equal their copies. *)
Lemma agrees_entity hs st new bio :
  synced hs st ->
  agrees (Store.mkState (Store.objects hs ++ [new]) (Store.scientists hs)
            (Some (length (Store.objects hs))) bio)
         (mkState (scientists st) (Some new) bio).
Proof.
  intros Hsync. split; [done|]. split.
  - cbn [Store.current_scientist Store.objects current_scientist].
    exists new. split; [|done]. by apply list_lookup_middle.
  - intros k. cbn [Store.current_scientist Store.objects Store.scientists scientists].
    specialize (Hsync k). destruct (Store.scientists hs !! k) as [a|]; [|done].
    destruct Hsync as (e & He & Hk). right.
    pose proof (lookup_lt_Some _ _ _ He) as Hlt. split.
    + intros [= E]. lia.
    + exists e. by rewrite lookup_app_l.
Qed.

Lemma agrees_step txt hs st mt :
  agrees hs st -> agrees (Store.step txt hs mt) (step txt st mt).
Proof.
  intros H. destruct mt as [start [g1 g2]]. unfold Store.step, step.
  destruct (split (strip g2)) as [|w rest]; [by apply agrees_reference|].
  destruct (agrees_save txt (Z.of_nat start) hs st H) as [Hsave Hsync].
  destruct ((2 <=? count isupper w) && (2 <? length w)).
  - by apply agrees_entity.
  - by apply agrees_reference.
Qed.

Lemma agrees_loop txt ms hs st :
  agrees hs st -> agrees (Store.loop txt ms hs) (loop txt ms st).
Proof.
  revert hs st. induction ms as [|mt ms IH]; intros hs st H; [done|].
  apply IH. by apply agrees_step.
Qed.

Lemma agrees_initial : agrees Store.initial initial.
Proof. split; [done|]. split; [done|]. intros k. simpl. by rewrite !lookup_empty. Qed.

(** The map read at the end of the loop is the same with the objects in a
    store and with copies in the map. *)
Lemma store_agrees txt :
  Store.parse_scientist_entries txt = parse_scientist_entries txt.
Proof.
  unfold Store.parse_scientist_entries, parse_scientist_entries, Store.run, run.
  pose proof (agrees_loop txt (finditer bracket_pattern (clean txt)) _ _ agrees_initial)
    as H.
  set (hs := Store.loop txt _ _) in *. set (st := loop txt _ _) in *.
  destruct H as (Hbio & Hcur & Hmap).
  assert (H : agrees hs st) by done.
  unfold Store.finish, finish. rewrite Hbio.
  destruct (agrees_save txt (Z.of_nat (length txt) - Z.of_nat (length (current_biography st)))
              hs st H) as [_ Hsync].
  apply map_eq. intros k. unfold Store.view. rewrite lookup_omap.
  specialize (Hsync k).
  destruct (Store.scientists (Store.save txt _ hs) !! k) as [a|]; simpl.
  - destruct Hsync as (e & -> & ->). done.
  - by rewrite Hsync.
Qed.

(** ** Sorting *)

Section SortFacts.
Context {A : Type} (le : A -> A -> bool).
Hypothesis le_total : forall a b, le a b = true \/ le b a = true.
Hypothesis le_trans : forall a b c, le a b = true -> le b c = true -> le a c = true.

Lemma insert_by_perm x l : insert_by le x l ≡ₚ x :: l.
Proof.
  induction l as [|y l IH]; simpl; [done|].
  destruct (le x y); [done|]. rewrite IH. apply perm_swap.
Qed.

Lemma sort_by_perm l : sort_by le l ≡ₚ l.
Proof.
  induction l as [|x l IH]; simpl; [done|].
  rewrite insert_by_perm. by rewrite IH.
Qed.

Lemma elem_of_sort_by x l : x ∈ sort_by le l <-> x ∈ l.
Proof. by rewrite sort_by_perm. Qed.

Lemma insert_by_sorted x l :
  StronglySorted (fun a b => le a b = true) l ->
  StronglySorted (fun a b => le a b = true) (insert_by le x l).
Proof using le_total le_trans.
  induction 1 as [|y l Hl IH Hy]; simpl.
  - repeat constructor.
  - destruct (le x y) eqn:E.
    + constructor; [by constructor|]. constructor; [done|].
      eapply Forall_impl; [exact Hy|]. intros z Hz. by eapply le_trans.
    + constructor; [done|].
      rewrite insert_by_perm. constructor; [|done].
      destruct (le_total x y); congruence.
Qed.

Lemma sort_by_sorted l : StronglySorted (fun a b => le a b = true) (sort_by le l).
Proof using le_total le_trans.
  induction l as [|x l IH]; simpl; [constructor|]. by apply insert_by_sorted.
Qed.


(** In a sorted list an element stands in front of every element it is
    strictly below. *)
Lemma sorted_before l x y :
  StronglySorted (fun a b => le a b = true) l ->
  x ∈ l -> y ∈ l -> le y x = false ->
  exists l1 l2 l3, l = l1 ++ x :: l2 ++ y :: l3.
Proof using le_total.
  intros Hs Hx Hy Hlt.
  apply list_elem_of_split in Hy as (l1 & l3 & ->).
  apply elem_of_app in Hx as [Hx|Hx].
  - apply list_elem_of_split in Hx as (l1' & l2 & ->).
    exists l1', l2, l3. by rewrite <- app_assoc.
  - apply StronglySorted_app_1_r, StronglySorted_inv in Hs as [_ Hall].
    rewrite Forall_forall in Hall.
    apply elem_of_cons in Hx as [->|Hx].
    + destruct (le_total y y); congruence.
    + rewrite (Hall x Hx) in Hlt. discriminate.
Qed.
End SortFacts.

Lemma Qc_leb_le a b : Qc_leb a b = true <-> (a <= b)%Qc.
Proof. unfold Qc_leb. apply bool_decide_eq_true. Qed.

Lemma Qc_ltb_lt a b : Qc_ltb a b = true <-> (a < b)%Qc.
Proof. unfold Qc_ltb. apply bool_decide_eq_true. Qed.

Lemma Qc_leb_total a b : Qc_leb a b = true \/ Qc_leb b a = true.
Proof.
  rewrite !Qc_leb_le. destruct (Qclt_le_dec a b) as [H|H]; [left|right]; [|done].
  by apply Qclt_le_weak.
Qed.

Lemma Qc_leb_trans a b c : Qc_leb a b = true -> Qc_leb b c = true -> Qc_leb a c = true.
Proof. rewrite !Qc_leb_le. apply Qcle_trans. Qed.

Lemma Qc_leb_false a b : Qc_leb a b = false <-> (b < a)%Qc.
Proof.
  unfold Qc_leb. rewrite bool_decide_eq_false. split.
  - apply Qcnot_le_lt.
  - intros H H'. by apply Qclt_not_le in H.
Qed.

Lemma sort_by_top_sorted ws :
  StronglySorted (fun a b => Qc_leb (top a) (top b) = true) (sort_by_top ws).
Proof.
  apply (sort_by_sorted (fun a b => Qc_leb (top a) (top b))).
  - intros a b. apply Qc_leb_total.
  - intros a b c. apply Qc_leb_trans.
Qed.

(** ** The column segmenter *)

Lemma join_cons sep w ws :
  join sep (w :: ws) = w ++ match ws with [] => [] | _ => sep ++ join sep ws end.
Proof. destruct ws; simpl; [by rewrite app_nil_r | done]. Qed.

(** The text of a token is part of the text of its column. *)
Lemma column_text_split l1 w l2 :
  exists p, column_text (l1 ++ w :: l2)
            = p ++ w_text w ++ match l2 with
                               | [] => []
                               | _ => str " " ++ column_text l2
                               end.
Proof.
  unfold column_text. induction l1 as [|v l1 [p IH]].
  - exists []. simpl app. rewrite fmap_cons, join_cons. by destruct l2.
  - exists (w_text v ++ str " " ++ p).
    change ((v :: l1) ++ w :: l2) with (v :: (l1 ++ w :: l2)).
    rewrite fmap_cons, join_cons, IH.
    destruct (l1 ++ w :: l2) eqn:E; [by destruct l1|].
    simpl. by rewrite <- !app_assoc.
Qed.

Lemma elem_of_left_column w cw boundary :
  w ∈ left_column_words cw boundary <-> w ∈ cw /\ (x0 w < boundary)%Qc.
Proof.
  unfold left_column_words, sort_by_top. rewrite elem_of_sort_by.
  rewrite list_elem_of_In, filter_In, <- list_elem_of_In, Qc_ltb_lt. done.
Qed.

Lemma elem_of_right_column w cw boundary :
  w ∈ right_column_words cw boundary <-> w ∈ cw /\ ~ (x0 w < boundary)%Qc.
Proof.
  unfold right_column_words, sort_by_top. rewrite elem_of_sort_by.
  rewrite list_elem_of_In, filter_In, <- list_elem_of_In, negb_true_iff.
  rewrite <- Qc_ltb_lt. destruct (Qc_ltb (x0 w) boundary); intuition congruence.
Qed.

(** Two tokens of one column, the upper one first. *)
Lemma column_order ws A B :
  A ∈ sort_by_top ws -> B ∈ sort_by_top ws -> (top A < top B)%Qc ->
  exists l1 l2 l3,
    sort_by_top ws = l1 ++ A :: l2 ++ B :: l3
    /\ exists p q r, column_text (sort_by_top ws) = p ++ w_text A ++ q ++ w_text B ++ r.
Proof.
  intros HA HB Hlt.
  destruct (sorted_before (fun a b => Qc_leb (top a) (top b))
              (fun a b => Qc_leb_total (top a) (top b))
              (sort_by_top ws) A B (sort_by_top_sorted ws) HA HB)
    as (l1 & l2 & l3 & E); [by apply Qc_leb_false|].
  exists l1, l2, l3. split; [exact E|]. rewrite E.
  destruct (column_text_split l1 A (l2 ++ B :: l3)) as [p Hp].
  destruct (column_text_split l2 B l3) as [q Hq].
  assert (Hp' : column_text (l1 ++ A :: l2 ++ B :: l3)
                = p ++ w_text A ++ str " " ++ column_text (l2 ++ B :: l3)).
  { rewrite Hp. by destruct l2. }
  rewrite Hp', Hq.
  exists p, (str " " ++ q). eexists. by rewrite <- !app_assoc.
Qed.

(** C7: the text of a page is the left column, a blank line, the right
    column; a column holds the retained tokens on its side of the boundary;
    inside a column the upper of two tokens comes first, in the token list
    and in the text; the text of a left token lies in the left segment and
    that of a right token in the right segment. *)
Theorem C7_reading_order (words : list Word) (width : Qc) :
  words <> [] ->
  let cw := content_words words in
  let boundary := column_boundary cw width in
  let L := left_column_words cw boundary in
  let R := right_column_words cw boundary in
  layout words width = column_text L ++ [nl; nl] ++ column_text R
  /\ (forall w, w ∈ L <-> w ∈ cw /\ (x0 w < boundary)%Qc)
  /\ (forall w, w ∈ R <-> w ∈ cw /\ ~ (x0 w < boundary)%Qc)
  /\ (forall A B, A ∈ L -> B ∈ L -> (top A < top B)%Qc ->
       exists l1 l2 l3, L = l1 ++ A :: l2 ++ B :: l3
         /\ exists p q r, column_text L = p ++ w_text A ++ q ++ w_text B ++ r)
  /\ (forall A B, A ∈ R -> B ∈ R -> (top A < top B)%Qc ->
       exists l1 l2 l3, R = l1 ++ A :: l2 ++ B :: l3
         /\ exists p q r, column_text R = p ++ w_text A ++ q ++ w_text B ++ r)
  /\ (forall A B, A ∈ L -> B ∈ R ->
       exists p q r s, column_text L = p ++ w_text A ++ q
                       /\ column_text R = r ++ w_text B ++ s).
Proof.
  intros Hne cw boundary L R. split; [by destruct words|].
  split; [intros w; apply elem_of_left_column|].
  split; [intros w; apply elem_of_right_column|].
  split; [intros A B; apply column_order|].
  split; [intros A B; apply column_order|].
  intros A B HA HB.
  apply list_elem_of_split in HA as (l1 & l2 & ->), HB as (r1 & r2 & ->).
  destruct (column_text_split l1 A l2) as [p ->].
  destruct (column_text_split r1 B r2) as [r ->].
  do 4 eexists. split; reflexivity.
Qed.

Lemma C7_reading_order_witness :
  layout example4_words (Qc_of_Z 612)
  = str "one two three" ++ [nl; nl] ++ str "four five six".
Proof.
  rewrite (proj1 (C7_reading_order example4_words (Qc_of_Z 612) ltac:(discriminate))).
  vm_compute. reflexivity.
Defined.

(** ** The column boundary *)









(** ** The span of an entity *)

Lemma is_entity_dec mt : {is_entity mt} + {~ is_entity mt}.
Proof.
  unfold is_entity. destruct (tokens mt) as [|w rest] eqn:E.
  - right. intros (? & ? & ? & _). discriminate.
  - destruct (entity_like_dec w) as [H|H].
    + left. eauto.
    + right. intros (? & ? & [= <- <-] & ?). done.
Qed.

Lemma step_is_entity txt st mt :
  is_entity mt ->
  step txt st mt
  = mkState (scientists (save txt (Z.of_nat mt.1) st))
            (Some (mkScientist (int mt.2.1) (entity_name mt) [] 0 ∅)) (seed mt).
Proof.
  destruct mt as [start [g1 g2]]. intros (w & rest & E & Hw).
  unfold entity_name, seed. rewrite E. unfold tokens in E. simpl in E.
  by rewrite (step_entity _ _ _ _ _ _ _ E Hw).
Qed.

Lemma step_not_entity txt st mt :
  ~ is_entity mt ->
  step txt st mt
  = record_reference (int mt.2.1) (piece mt)
      (match tokens mt with [] => st | _ => save txt (Z.of_nat mt.1) st end).
Proof.
  destruct mt as [start [g1 g2]]. intros Hno. unfold piece.
  destruct (tokens (start, (g1, g2))) as [|w rest] eqn:E; unfold tokens in E; simpl in E.
  - rewrite (step_empty _ _ _ _ _ E). by rewrite app_nil_r.
  - rewrite (step_reference _ _ _ _ _ w rest E); [done|].
    intros Hw. apply Hno. exists w, rest. done.
Qed.

Lemma closed_snoc ms mt k e : closed ms k e -> closed (ms ++ [mt]) k e.
Proof.
  intros (pre & m & refs & m' & post & -> & ?). exists pre, m, refs, m', (post ++ [mt]).
  split; [|done]. reassoc.
Qed.

Lemma inv_save txt stop ms st : inv ms st -> inv ms (save txt stop st).
Proof.
  intros [Hmap Hopen]. unfold save.
  destruct (current_scientist st) as [c|] eqn:Ec; [|by split]. split.
  - intros k e. simpl. destruct (decide (id c = k)) as [<-|Hne].
    + intros _. left. eexists. split; [reflexivity|done].
    + rewrite lookup_insert_ne by done. intros [(c' & Hc' & <-)|H]%Hmap; [|by right].
      rewrite Ec in Hc'. by simplify_eq.
  - intros c' [= <-]. simpl. destruct (Hopen c Ec) as (pre & m & refs & H).
    exists pre, m, refs. done.
Qed.

Lemma inv_reference ms st mt :
  inv ms st -> ~ is_entity mt ->
  inv (ms ++ [mt]) (record_reference (int mt.2.1) (piece mt) st).
Proof.
  intros [Hmap Hopen] Hno. unfold record_reference.
  destruct (current_scientist st) as [c|] eqn:Ec.
  - split.
    + intros k e. simpl. intros [(c' & Hc' & <-)|H]%Hmap.
      * left. eexists. split; [reflexivity|]. rewrite Ec in Hc'. by simplify_eq.
      * right. by apply closed_snoc.
    + intros c' [= <-]. simpl.
      destruct (Hopen c Ec) as (pre & m & refs & -> & ? & ? & ? & ? & ->).
      exists pre, m, (refs ++ [mt]). split; [reassoc|].
      split; [done|]. split; [done|].
      split; [apply Forall_app; split; [done|by constructor]|].
      split; [done|]. unfold buffer_of.
      rewrite fmap_app, concat_app. simpl. by rewrite app_nil_r, app_assoc.
  - split.
    + intros k e [(c' & Hc' & _)|H]%Hmap; [congruence|]. right. by apply closed_snoc.
    + intros c'. congruence.
Qed.

(** Saving the current entity in front of a new one closes its span. *)
Lemma save_closes txt stop ms st mt k e :
  inv ms st -> is_entity mt ->
  scientists (save txt stop st) !! k = Some e -> closed (ms ++ [mt]) k e.
Proof.
  intros [Hmap Hopen] Hmt. unfold save.
  destruct (current_scientist st) as [c|] eqn:Ec.
  - simpl. destruct (decide (id c = k)) as [<-|Hne].
    + rewrite lookup_insert_eq. intros [= <-]. simpl.
      destruct (Hopen c Ec) as (pre & m & refs & -> & ? & ? & ? & ? & ->).
      exists pre, m, refs, mt, []. split; [reassoc|]. done.
    + rewrite lookup_insert_ne by done. intros [(c' & Hc' & <-)|H]%Hmap.
      * rewrite Ec in Hc'. by simplify_eq.
      * by apply closed_snoc.
  - intros [(c' & Hc' & _)|H]%Hmap; [congruence|]. by apply closed_snoc.
Qed.

Lemma inv_step txt ms st mt : inv ms st -> inv (ms ++ [mt]) (step txt st mt).
Proof.
  intros Hinv. destruct (is_entity_dec mt) as [Hmt|Hmt].
  - rewrite (step_is_entity _ _ _ Hmt). split.
    + intros k e. simpl. intros H. right. by eapply save_closes.
    + intros c [= <-]. simpl. exists ms, mt, []. split; [done|].
      split; [done|]. split; [done|]. split; [constructor|]. split; [done|].
      unfold buffer_of. simpl. by rewrite app_nil_r.
  - rewrite (step_not_entity _ _ _ Hmt). apply inv_reference; [|done].
    destruct (tokens mt); [done|]. by apply inv_save.
Qed.

Lemma inv_loop txt ms done st :
  inv done st -> inv (done ++ ms) (loop txt ms st).
Proof.
  revert done st. induction ms as [|mt ms IH]; intros done st H.
  - by rewrite app_nil_r.
  - simpl. replace (done ++ mt :: ms) with ((done ++ [mt]) ++ ms) by reassoc.
    apply IH. by apply inv_step.
Qed.

Lemma inv_initial : inv [] initial.
Proof.
  split; [|intros c; discriminate].
  intros k e H. simpl in H. by rewrite lookup_empty in H.
Qed.

(** Behind the loop every stored entity has its span. *)
Lemma finish_span_of txt ms st k e :
  inv ms st -> scientists (finish txt st) !! k = Some e -> span_of ms k e.
Proof.
  intros [Hmap Hopen]. unfold finish, save.
  assert (Hclosed : forall k e, closed ms k e -> span_of ms k e).
  { intros k' e' (pre & m & refs & m' & post & ? & ? & ? & ? & ? & ?).
    exists pre, m, refs, (m' :: post). done. }
  destruct (current_scientist st) as [c|] eqn:Ec.
  - simpl. destruct (decide (id c = k)) as [<-|Hne].
    + rewrite lookup_insert_eq. intros [= <-]. simpl.
      destruct (Hopen c Ec) as (pre & m & refs & -> & ? & ? & ? & ? & ->).
      exists pre, m, refs, []. rewrite app_nil_r. done.
    + rewrite lookup_insert_ne by done. intros [(c' & Hc' & <-)|H]%Hmap; [|auto].
      rewrite Ec in Hc'. by simplify_eq.
  - intros [(c' & Hc' & _)|H]%Hmap; [congruence|auto].
Qed.

(** C6: every entity of the final map is the entity of one span of the
    matches of the bracket pattern: its name and biography are computed from
    the match that starts it and the references up to the next new-entity
    match, from nothing behind that match.  The matches are pieces of the
    cleaned text, in the order of the text and without overlap, and the text
    behind a tag holds no opening bracket: the span ends in front of the tag
    of the next entity. *)
Theorem C6_biography_within_span (txt : text) (k : Z) (e : Scientist) :
  parse_scientist_entries txt !! k = Some e ->
  let ms := finditer bracket_pattern (clean txt) in
  span_of ms k e
  /\ Forall (fun mt => tag_match mt
                       /\ take (length (match_text mt)) (drop mt.1 (clean txt))
                          = match_text mt) ms
  /\ StronglySorted (fun a b => match_end a <= b.1) ms.
Proof.
  intros Hk ms. split; [|apply finditer_bracket_layout].
  revert Hk. unfold parse_scientist_entries, run. apply finish_span_of.
  apply (inv_loop txt _ [] initial inv_initial).
Qed.

Lemma C6_biography_within_span_witness :
  exists e3 e4,
    parse_scientist_entries example2 !! 3%Z = Some e3
    /\ parse_scientist_entries example2 !! 4%Z = Some e4
    /\ name e3 = str "THALES" /\ biography e3 = str "bio text"
    /\ name e4 = str "SOLON" /\ biography e4 = str "bio text"
    /\ span_of (finditer bracket_pattern (clean example2)) 3 e3.
Proof.
  do 2 eexists. do 6 (split; [vm_compute; reflexivity|]).
  apply (C6_biography_within_span example2 3). vm_compute. reflexivity.
Defined.

(** ** The reference resolver *)

Lemma resolve_fold k refs s :
  id (fold_left (resolve_step k) refs s) = id s
  /\ name (fold_left (resolve_step k) refs s) = name s
  /\ biography (fold_left (resolve_step k) refs s) = biography s
  /\ page_number (fold_left (resolve_step k) refs s) = page_number s
  /\ connections (fold_left (resolve_step k) refs s)
     = connections s ∪ (list_to_set (int <$> refs) ∖ {[k]}).
Proof.
  revert s. induction refs as [|ref refs IH]; intros s.
  - simpl. split_and!; try done. set_solver.
  - cbn [fold_left]. destruct (IH (resolve_step k s ref)) as (-> & -> & -> & -> & ->).
    unfold resolve_step. destruct (decide (int ref ≠ k)); simpl.
    + split_and!; try done. set_solver.
    + split_and!; try done. set_solver.
Qed.

Lemma resolve_spec k s :
  id (resolve k s) = id s /\ name (resolve k s) = name s
  /\ biography (resolve k s) = biography s
  /\ page_number (resolve k s) = page_number s
  /\ connections (resolve k s) = connections s ∪ (tag_ids (biography s) ∖ {[k]}).
Proof. apply resolve_fold. Qed.

Lemma lookup_extract_connections m k :
  extract_connections m !! k = resolve k <$> m !! k.
Proof.
  unfold extract_connections. rewrite map_lookup_imap. by destruct (m !! k).
Qed.

Lemma extract_connections_keyed m : keyed m -> keyed (extract_connections m).
Proof.
  intros H k e. rewrite lookup_extract_connections.
  destruct (m !! k) as [e0|] eqn:E; [|discriminate]. intros [= <-].
  destruct (resolve_spec k e0) as [-> _]. by apply (H k e0).
Qed.

(** ** The graph builder *)

Lemma elem_of_edges_of k s r :
  r ∈ edges_of k s <-> source r = k /\ target r ∈ connections s.
Proof.
  unfold edges_of. rewrite list_elem_of_fmap. split.
  - intros (t & -> & Ht). by apply elem_of_elements in Ht.
  - intros [<- Ht]. exists (target r). split; [by destruct r|]. by apply elem_of_elements.
Qed.

Lemma NoDup_edges_of k s : NoDup (edges_of k s).
Proof.
  unfold edges_of. apply NoDup_fmap_2; [|apply NoDup_elements].
  intros t1 t2 [=]. done.
Qed.

Lemma elem_of_create_relationships (m : gmap Z Scientist) r :
  r ∈ create_relationships m [] <->
  exists e, m !! source r = Some e /\ target r ∈ connections e.
Proof.
  unfold create_relationships. simpl. rewrite list_elem_of_bind. split.
  - intros ([k e] & Hr & Hke). apply elem_of_edges_of in Hr as [E Ht].
    simpl in *. subst k. apply elem_of_map_to_list in Hke. eauto.
  - intros (e & He & Ht). exists (source r, e). split.
    + by apply elem_of_edges_of.
    + by apply elem_of_map_to_list.
Qed.

Lemma NoDup_create_relationships (m : gmap Z Scientist) :
  NoDup (create_relationships m []).
Proof.
  unfold create_relationships. simpl. apply NoDup_bind.
  - intros [k1 e1] [k2 e2] r H1 H2 [E1 _]%elem_of_edges_of [E2 _]%elem_of_edges_of.
    simpl in *. subst k1 k2. apply elem_of_map_to_list in H1, H2. congruence.
  - intros [k e] _. apply NoDup_edges_of.
  - apply NoDup_map_to_list.
Qed.

(** C9: [create_relationships], started with no relationships, emits every
    pair (entity id, connection id) once and nothing else, whether or not
    the target is a key of the entity map; a target that is no key is the
    id of no node. *)
Theorem C9_one_edge_per_connection (m : gmap Z Scientist) :
  keyed m ->
  let relationships := create_relationships m [] in
  NoDup relationships
  /\ (forall s t, mkRelationship s t ∈ relationships
                 <-> exists e, m !! s = Some e /\ t ∈ connections e)
  /\ (forall s e t, m !! s = Some e -> t ∈ connections e -> m !! t = None ->
        mkRelationship s t ∈ relationships
        /\ forall n, n ∈ (map_to_list m).*2 -> id n <> t).
Proof.
  intros Hkeyed relationships. split; [apply NoDup_create_relationships|].
  split; [intros s t; apply (elem_of_create_relationships m (mkRelationship s t))|].
  intros s e t Hs Ht Hnone. split.
  - apply (elem_of_create_relationships m (mkRelationship s t)). eauto.
  - intros n ([k n'] & -> & Hn)%list_elem_of_fmap. simpl.
    apply elem_of_map_to_list in Hn. intros E.
    rewrite (Hkeyed k n' Hn) in E. congruence.
Qed.

Lemma C9_one_edge_per_connection_witness :
  links (build_network example3) = [mkRelationship 1 99]
  /\ (id <$> nodes (build_network example3)) = [1%Z]
  /\ forall n, n ∈ nodes (build_network example3) -> id n <> 99%Z.
Proof.
  pose (m := extract_connections (parse_scientist_entries example3)).
  assert (Hkeyed : keyed m) by apply extract_connections_keyed, parse_keyed.
  split; [vm_compute; reflexivity|]. split; [vm_compute; reflexivity|].
  destruct (C9_one_edge_per_connection m Hkeyed) as (_ & _ & H).
  eapply (H 1%Z _ 99%Z); vm_compute; reflexivity.
Defined.

(** ** Decimal numerals *)

Lemma int_acc_app a ds es : int_acc a (ds ++ es) = int_acc (int_acc a ds) es.
Proof. unfold int_acc. apply fold_left_app. Qed.

Lemma isdigit_value c : isdigit c = true -> (0 <= digit_value c <= 9)%Z.
Proof.
  unfold isdigit, between, digit_value. rewrite andb_true_iff, !N.leb_le. lia.
Qed.

Lemma int_acc_nonneg a ds :
  (0 <= a)%Z -> Forall (fun c => isdigit c = true) ds -> (0 <= int_acc a ds)%Z.
Proof.
  intros Ha Hds. revert a Ha. induction Hds as [|d ds Hd _ IH]; intros a Ha; [done|].
  simpl. apply IH. apply isdigit_value in Hd. lia.
Qed.

Lemma int_nonneg ds : Forall (fun c => isdigit c = true) ds -> (0 <= int ds)%Z.
Proof. by apply int_acc_nonneg. Qed.

Lemma digit_char_spec d :
  (d < 10)%N -> isdigit (digit_char d) = true /\ digit_value (digit_char d) = Z.of_N d.
Proof.
  intros Hd.
  assert (H : (d = 0 \/ d = 1 \/ d = 2 \/ d = 3 \/ d = 4 \/ d = 5 \/ d = 6
               \/ d = 7 \/ d = 8 \/ d = 9)%N) by lia.
  repeat (destruct H as [->|H]; [vm_compute; done|]). subst d. vm_compute. done.
Qed.

Lemma digits_of_spec fuel n acc :
  (n < 10 ^ N.of_nat fuel)%N ->
  exists ds, digits_of fuel n acc = ds ++ acc
    /\ Forall (fun c => isdigit c = true) ds
    /\ (fuel <> 0 -> ds <> [])
    /\ forall a, int_acc a ds = (a * 10 ^ Z.of_nat (length ds) + Z.of_N n)%Z.
Proof.
  revert n acc. induction fuel as [|fuel IH]; intros n acc Hn.
  - exists []. simpl in *. split_and!; try done. intros a.
    unfold int_acc. simpl. lia.
  - simpl. assert (Hmod : (n mod 10 < 10)%N) by (apply N.mod_lt; lia).
    destruct (digit_char_spec _ Hmod) as [Hd Hv].
    destruct (N.eqb_spec (n / 10) 0) as [Hz|Hnz].
    + exists [digit_char (n mod 10)]. split_and!; try done.
      * by constructor.
      * intros a. unfold int_acc. simpl. rewrite Hv.
        pose proof (N.div_mod n 10 ltac:(lia)) as Hdm. rewrite Hz in Hdm. lia.
    + destruct (IH (n / 10)%N (digit_char (n mod 10) :: acc)) as (ds & -> & Hds & _ & Hint).
      { apply N.Div0.div_lt_upper_bound.
        rewrite Nat2N.inj_succ, N.pow_succ_r' in Hn. lia. }
      exists (ds ++ [digit_char (n mod 10)]). split_and!.
      * reassoc.
      * apply Forall_app. split; [done|]. by constructor.
      * intros _. by destruct ds.
      * intros a. rewrite int_acc_app, Hint. unfold int_acc at 1. simpl.
        rewrite Hv, length_app, Nat2Z.inj_add. simpl.
        rewrite Z.pow_add_r by lia.
        pose proof (N.div_mod n 10 ltac:(lia)) as Hdm. lia.
Qed.

Lemma repr_N_spec n :
  Forall (fun c => isdigit c = true) (repr_N n) /\ repr_N n <> []
  /\ int (repr_N n) = Z.of_N n.
Proof.
  unfold repr_N.
  destruct (digits_of_spec (S (N.to_nat (N.log2 n))) n []) as (ds & E & Hds & Hne & Hint).
  - rewrite Nat2N.inj_succ, N2Nat.id.
    destruct (N.eq_dec n 0%N) as [->|Hn]; [done|].
    apply N.lt_le_trans with (2 ^ N.succ (N.log2 n))%N.
    + apply N.log2_spec. lia.
    + apply N.pow_le_mono_l. lia.
  - rewrite E, app_nil_r. split_and!; [done|by apply Hne|].
    unfold int. fold (int_acc 0 ds). rewrite Hint. lia.
Qed.

Lemma repr_spec z :
  (0 <= z)%Z ->
  Forall (fun c => isdigit c = true) (repr z) /\ repr z <> [] /\ int (repr z) = z.
Proof.
  intros Hz. unfold repr. destruct (Z.ltb_spec z 0) as [?|_]; [lia|].
  destruct (repr_N_spec (Z.to_N z)) as (? & ? & ->). split_and!; try done. lia.
Qed.

(** ** Words and blanks *)

Lemma lstrip_keeps a w b :
  solid w -> exists a', lstrip (a ++ w ++ b) = a' ++ w ++ b.
Proof.
  intros [Hne Hw]. induction a as [|c a [a' IH]].
  - exists []. destruct w as [|c w]; [done|]. inv Hw. simpl.
    by match goal with H : isspace c = false |- _ => rewrite H end.
  - simpl. destruct (isspace c); [by exists a' | by exists (c :: a)].
Qed.

Lemma solid_rev w : solid w -> solid (rev w).
Proof.
  intros [Hne Hw]. split.
  - intros E. apply (f_equal (@rev ascii)) in E. rewrite rev_involutive in E. done.
  - by apply Forall_rev.
Qed.

Lemma rstrip_keeps a w b :
  solid w -> exists b', rstrip (a ++ w ++ b) = a ++ w ++ b'.
Proof.
  intros Hw. unfold rstrip. rewrite !rev_app_distr, <- app_assoc.
  destruct (lstrip_keeps (rev b) (rev w) (rev a) (solid_rev _ Hw)) as [b' ->].
  exists (rev b'). by rewrite !rev_app_distr, !rev_involutive, <- app_assoc.
Qed.

Lemma strip_keeps a w b :
  solid w -> exists a' b', strip (a ++ w ++ b) = a' ++ w ++ b'.
Proof.
  intros Hw. unfold strip. destruct (lstrip_keeps a w b Hw) as [a' ->].
  destruct (rstrip_keeps a' w b Hw) as [b' ->]. eauto.
Qed.

Lemma sub_unfold {M} (p : text -> option (M * text)) repl s :
  sub p repl s = flat_map (render repl) (scan_from p 0 s).
Proof. reflexivity. Qed.

(** A run of blanks in front of a word ends in front of the word. *)
Lemma blank_run_prefix (a w b ws r : text) :
  solid w -> a ++ w ++ b = ws ++ r ->
  Forall (fun c => isspace c = true) ws ->
  exists a1, a = ws ++ a1 /\ r = a1 ++ w ++ b.
Proof.
  intros [Hne Hw] E Hws. revert a E.
  induction Hws as [|x ws Hx _ IH]; intros a E.
  - exists a. done.
  - destruct a as [|y a].
    + destruct w as [|c w]; [done|]. inv Hw. simplify_eq/=. congruence.
    + simplify_eq/=. destruct (IH a) as (a1 & -> & ->); [done|]. by exists a1.
Qed.

Lemma sub_blanks_keeps_from a w b pos :
  solid w ->
  exists a' b',
    flat_map (render (str " ")) (scan_from blanks pos (a ++ w ++ b)) = a' ++ w ++ b'.
Proof.
  intros Hw. remember (length a) as n eqn:Hn. revert a pos Hn.
  induction (lt_wf n) as [n _ IH]. intros a pos ->.
  destruct a as [|c a].
  - clear IH. simpl app. destruct Hw as [Hne Hw]. exists [].
    assert (H : forall pos, exists b',
               flat_map (render (str " ")) (scan_from blanks pos (w ++ b)) = w ++ b').
    { clear Hne pos. induction Hw as [|c w Hc Hw IH]; intros pos; [by eexists|].
      assert (E : blanks (c :: w ++ b) = None).
      { unfold blanks. simpl. by rewrite Hc. }
      change ((c :: w) ++ b) with (c :: w ++ b).
      rewrite (scan_from_miss _ _ _ _ E). cbn [flat_map render].
      destruct (IH (S pos)) as [b' ->]. by exists b'. }
    apply H.
  - change ((c :: a) ++ w ++ b) with (c :: a ++ w ++ b).
    destruct (blanks (c :: a ++ w ++ b)) as [[ws r]|] eqn:E.
    + rewrite (scan_from_hit _ blanks_shrinks _ _ _ _ E). cbn [flat_map render].
      apply blanks_Some in E as (E & Hne & Hws & _).
      destruct (blank_run_prefix (c :: a) w b ws r Hw E Hws) as (a1 & Ea & ->).
      destruct (IH (length a1)) with (a := a1)
        (pos := pos + (length (c :: a ++ w ++ b) - length (a1 ++ w ++ b)))
        as (a' & b' & ->); [|done|].
      * rewrite Ea, length_app. destruct ws; [done|]. simpl. lia.
      * exists (str " " ++ a'), b'. reassoc.
    + rewrite (scan_from_miss _ _ _ _ E). cbn [flat_map render].
      destruct (IH (length a)) with (a := a) (pos := S pos) as (a' & b' & ->);
        [simpl; lia|done|].
      exists (c :: a'), b'. done.
Qed.

Lemma normalize_keeps a w b :
  solid w -> exists a' b', normalize (a ++ w ++ b) = a' ++ w ++ b'.
Proof.
  intros Hw. unfold normalize.
  destruct (strip_keeps a w b Hw) as (a1 & b1 & ->). rewrite sub_unfold.
  destruct (sub_blanks_keeps_from a1 w b1 0 Hw) as (a2 & b2 & ->).
  by apply strip_keeps.
Qed.

(** ** Tags in a biography *)

Lemma tag_of_solid n : (0 <= n)%Z -> solid (tag_of n).
Proof.
  intros Hn. destruct (repr_spec n Hn) as (Hds & _ & _). split; [done|].
  unfold tag_of. constructor; [reflexivity|]. apply Forall_app. split.
  - eapply Forall_impl; [exact Hds|]. intros c Hc.
    unfold isdigit, isspace, between in *.
    rewrite andb_true_iff, !N.leb_le in Hc.
    rewrite !orb_false_iff, !andb_false_iff, !N.leb_gt. lia.
  - by constructor.
Qed.

(** A tag that stands behind [a] is behind a match that starts in [a]. *)
Lemma tag_run_prefix (a ds r y : text) :
  a ++ "["%char :: y = ds ++ "]"%char :: r ->
  Forall (fun c => isdigit c = true) ds ->
  exists a1, a = ds ++ "]"%char :: a1 /\ r = a1 ++ "["%char :: y.
Proof.
  intros E Hds. revert a E. induction Hds as [|d ds Hd _ IH]; intros a E.
  - destruct a as [|x a]; simplify_eq/=. by exists a.
  - destruct a as [|x a]; simplify_eq/=.
    destruct (IH a) as (a1 & -> & ->); [done|]. by exists a1.
Qed.

(** Every tag of the text is found by [re.findall]. *)
Lemma hits_tag_occurs a ds b pos :
  ds <> [] -> Forall (fun c => isdigit c = true) ds ->
  ds ∈ (hits (scan_from ref_tag pos (a ++ "["%char :: ds ++ "]"%char :: b))).*2.
Proof.
  intros Hne Hds. remember (length a) as n eqn:Hn. revert a pos Hn.
  induction (lt_wf n) as [n _ IH]. intros a pos ->.
  destruct a as [|c a].
  - simpl app.
    assert (E : ref_tag ("["%char :: ds ++ "]"%char :: b) = Some (ds, b))
      by (by apply ref_tag_Some).
    rewrite (scan_from_hit _ ref_tag_shrinks _ _ _ _ E). simpl. left.
  - change ((c :: a) ++ "["%char :: ds ++ "]"%char :: b)
      with (c :: a ++ "["%char :: ds ++ "]"%char :: b).
    destruct (ref_tag (c :: a ++ "["%char :: ds ++ "]"%char :: b)) as [[ds' r]|] eqn:E.
    + rewrite (scan_from_hit _ ref_tag_shrinks _ _ _ _ E). simpl. right.
      apply ref_tag_Some in E as (E & _ & Hds'). injection E as -> E.
      destruct (tag_run_prefix a ds' r _ E Hds') as (a1 & -> & ->).
      apply (IH (length a1)); [|done]. simpl. rewrite length_app. simpl. lia.
    + rewrite (scan_from_miss _ _ _ _ E). simpl.
      apply (IH (length a)); [simpl; lia|done].
Qed.

Lemma elem_of_tag_ids n s :
  n ∈ tag_ids s <-> exists ds, ds ∈ findall ref_tag s /\ int ds = n.
Proof.
  unfold tag_ids. rewrite elem_of_list_to_set, list_elem_of_fmap. naive_solver.
Qed.

Lemma tag_of_occurs n a b :
  (0 <= n)%Z -> n ∈ tag_ids (a ++ tag_of n ++ b).
Proof.
  intros Hn. destruct (repr_spec n Hn) as (Hds & Hne & Hint).
  apply elem_of_tag_ids. exists (repr n). split; [|done].
  unfold tag_of. replace (a ++ ("["%char :: repr n ++ ["]"%char]) ++ b)
    with (a ++ "["%char :: repr n ++ "]"%char :: b) by reassoc.
  by apply hits_tag_occurs.
Qed.

Lemma parse_recorded txt : recorded (run txt).
Proof.
  apply (run_invariant txt recorded).
  - intros stop st [Hm Hc]. unfold save.
    destruct (current_scientist st) as [c|] eqn:Ec; [|by split; [|rewrite Ec]].
    split.
    + simpl. apply map_Forall_insert_2; [|done]. simpl. intros n Hn.
      destruct (Hc c eq_refl n Hn) as (Hpos & a & b & ->).
      destruct (normalize_keeps a (tag_of n) b (tag_of_solid n Hpos)) as (a' & b' & ->).
      by apply tag_of_occurs.
    + intros c' [= <-]. simpl. by apply Hc.
  - intros g1 tail st Hds [Hm Hc]. unfold record_reference.
    destruct (current_scientist st) as [c|] eqn:Ec; [|by split; [|rewrite Ec]].
    split; [done|]. intros c' [= <-] n.
    cbn [connections add_connection current_biography].
    rewrite elem_of_union, elem_of_singleton. intros [->|Hn].
    + split; [by apply int_nonneg|].
      exists (current_biography st ++ str " "), tail. unfold tag_of. reassoc.
    + destruct (Hc c eq_refl n Hn) as (Hpos & a & b & ->). split; [done|].
      exists a, (b ++ str " [" ++ repr (int g1) ++ str "]" ++ tail). reassoc.
  - intros st n w bio [Hm _]. split; [done|]. intros c [= <-] m. simpl. set_solver.
  - split; [apply map_Forall_empty | discriminate].
Qed.

(** ** The resolved connections *)

Lemma Scientist_eq (a b : Scientist) :
  id a = id b -> name a = name b -> biography a = biography b ->
  page_number a = page_number b -> connections a = connections b -> a = b.
Proof. destruct a, b. simpl. by intros -> -> -> -> ->. Qed.



(** * Further properties *)

(** ** The last span of an id *)

Lemma ref_ids_snoc refs mt : ref_ids (refs ++ [mt]) = {[int mt.2.1]} ∪ ref_ids refs.
Proof. unfold ref_ids. rewrite fmap_app, list_to_set_app_L. simpl. set_solver. Qed.

Lemma closed_last_snoc ms mt k e :
  ~ starts_id k mt -> closed_last ms k e -> closed_last (ms ++ [mt]) k e.
Proof.
  intros Hmt (pre & m & refs & m' & post & -> & ? & ? & ? & Hpost & ?).
  exists pre, m, refs, m', (post ++ [mt]). split; [reassoc|]. split_and!; try done.
  rewrite app_comm_cons. apply Forall_app. split; [done|]. by constructor.
Qed.

(** After a save the current entity is in the map. *)
Lemma save_pending_stored txt stop st k :
  pending (save txt stop st) k -> is_Some (scientists (save txt stop st) !! k).
Proof.
  unfold save, pending. destruct (current_scientist st) as [c|] eqn:Ec.
  - simpl. intros (c' & [= <-] & <-). simpl. rewrite lookup_insert_eq. eauto.
  - rewrite Ec. by intros (c' & ? & _).
Qed.

Lemma inv_last_save txt stop ms st : inv_last ms st -> inv_last ms (save txt stop st).
Proof.
  intros (Hmap & Hopen & Hdom). unfold save.
  destruct (current_scientist st) as [c|] eqn:Ec; [|by split_and!].
  split_and!.
  - intros k e. simpl. destruct (decide (id c = k)) as [<-|Hne].
    + intros _. left. eexists. split; [reflexivity|done].
    + rewrite lookup_insert_ne by done. intros [(c' & Hc' & <-)|H]%Hmap; [|by right].
      rewrite Ec in Hc'. by simplify_eq.
  - intros c' [= <-]. simpl. destruct (Hopen c Ec) as (pre & m & refs & H).
    exists pre, m, refs. done.
  - intros m Hm Hent. simpl. destruct (Hdom m Hm Hent) as [Hsome|(c' & Hc' & Hid)].
    + left. destruct (decide (id c = int m.2.1)) as [<-|Hne].
      * rewrite lookup_insert_eq. eauto.
      * by rewrite lookup_insert_ne.
    + right. rewrite Ec in Hc'. simplify_eq. eexists. split; [reflexivity|done].
Qed.

Lemma inv_last_reference ms st mt :
  inv_last ms st -> ~ is_entity mt ->
  inv_last (ms ++ [mt]) (record_reference (int mt.2.1) (piece mt) st).
Proof.
  intros (Hmap & Hopen & Hdom) Hno.
  assert (Hk : forall k, ~ starts_id k mt) by (intros k [? _]; done).
  unfold record_reference. destruct (current_scientist st) as [c|] eqn:Ec.
  - split_and!.
    + intros k e. simpl. intros [(c' & Hc' & <-)|H]%Hmap.
      * left. eexists. split; [reflexivity|]. rewrite Ec in Hc'. by simplify_eq.
      * right. by apply closed_last_snoc.
    + intros c' [= <-]. simpl.
      destruct (Hopen c Ec) as (pre & m & refs & -> & ? & ? & ? & ? & Hconn & ->).
      exists pre, m, (refs ++ [mt]). split; [reassoc|]. split_and!; try done.
      * apply Forall_app. split; [done|]. by constructor.
      * by rewrite ref_ids_snoc, Hconn.
      * unfold buffer_of. rewrite fmap_app, concat_app. simpl.
        by rewrite app_nil_r, app_assoc.
    + intros m [Hm|Hm%list_elem_of_singleton]%elem_of_app Hent; [|by subst].
      simpl. destruct (Hdom m Hm Hent) as [?|(c' & Hc' & Hid)]; [by left|].
      right. rewrite Ec in Hc'. simplify_eq. eexists. split; [reflexivity|done].
  - split_and!.
    + intros k e [(c' & Hc' & _)|H]%Hmap; [congruence|]. right.
      by apply closed_last_snoc.
    + intros c'. congruence.
    + intros m [Hm|Hm%list_elem_of_singleton]%elem_of_app Hent; [|by subst].
      destruct (Hdom m Hm Hent) as [?|(c' & Hc' & Hid)]; [by left|congruence].
Qed.

Lemma inv_last_entity txt ms st mt :
  inv_last ms st -> is_entity mt ->
  inv_last (ms ++ [mt])
    (mkState (scientists (save txt (Z.of_nat mt.1) st))
       (Some (mkScientist (int mt.2.1) (entity_name mt) [] 0 ∅)) (seed mt)).
Proof.
  intros (Hmap & Hopen & Hdom) Hmt. split_and!.
  - intros k e. cbn [scientists]. intros Hk.
    destruct (decide (int mt.2.1 = k)) as [<-|Hne].
    { left. eexists. split; [reflexivity|done]. }
    right. assert (Hnew : ~ starts_id k mt) by (intros [_ ?]; done).
    revert Hk. unfold save. destruct (current_scientist st) as [c|] eqn:Ec.
    + simpl. destruct (decide (id c = k)) as [<-|Hne'].
      * rewrite lookup_insert_eq. intros [= <-].
        destruct (Hopen c Ec) as (pre & m & refs & -> & ? & ? & ? & ? & ? & Hbio).
        exists pre, m, refs, mt, []. split; [reassoc|]. split_and!; try done.
        -- by constructor.
        -- simpl. by rewrite Hbio.
      * rewrite lookup_insert_ne by done. intros [(c' & Hc' & <-)|H]%Hmap.
        -- rewrite Ec in Hc'. by simplify_eq.
        -- by apply closed_last_snoc.
    + intros [(c' & Hc' & _)|H]%Hmap; [congruence|]. by apply closed_last_snoc.
  - intros c [= <-]. simpl. exists ms, mt, []. split_and!; try done.
    unfold buffer_of. simpl. by rewrite app_nil_r.
  - intros m [Hm|Hm%list_elem_of_singleton]%elem_of_app Hent.
    + destruct (inv_last_save txt (Z.of_nat mt.1) ms st (conj Hmap (conj Hopen Hdom)))
        as (_ & _ & Hdom').
      left. destruct (Hdom' m Hm Hent) as [?|Hpend]; [done|].
      by apply save_pending_stored.
    + subst m. right. eexists. split; [reflexivity|done].
Qed.

Lemma inv_last_step txt ms st mt :
  inv_last ms st -> inv_last (ms ++ [mt]) (step txt st mt).
Proof.
  intros Hinv. destruct (is_entity_dec mt) as [Hmt|Hmt].
  - rewrite (step_is_entity _ _ _ Hmt). by apply inv_last_entity.
  - rewrite (step_not_entity _ _ _ Hmt). apply inv_last_reference; [|done].
    destruct (tokens mt); [done|]. by apply inv_last_save.
Qed.

Lemma inv_last_loop txt ms done st :
  inv_last done st -> inv_last (done ++ ms) (loop txt ms st).
Proof.
  revert done st. induction ms as [|mt ms IH]; intros done st H.
  - by rewrite app_nil_r.
  - simpl. replace (done ++ mt :: ms) with ((done ++ [mt]) ++ ms) by reassoc.
    apply IH. by apply inv_last_step.
Qed.

Lemma inv_last_run txt :
  inv_last (finditer bracket_pattern (clean txt))
    (loop txt (finditer bracket_pattern (clean txt)) initial).
Proof.
  apply (inv_last_loop txt _ [] initial). split_and!.
  - intros k e H. simpl in H. by rewrite lookup_empty in H.
  - intros c. discriminate.
  - intros m Hm. by apply elem_of_nil in Hm.
Qed.

Lemma last_span_of_entry (txt : text) (k : Z) (e : Scientist) :
  parse_scientist_entries txt !! k = Some e ->
  span_last (finditer bracket_pattern (clean txt)) k e.
Proof.
  unfold parse_scientist_entries, run, finish.
  destruct (inv_last_run txt) as (Hmap & Hopen & _).
  set (ms := finditer bracket_pattern (clean txt)) in *.
  set (st := loop txt ms initial) in *.
  assert (Hclosed : forall k e, closed_last ms k e -> span_last ms k e).
  { intros k' e' (pre & m & refs & m' & post & ? & ? & ? & ? & ? & ?).
    exists pre, m, refs, (m' :: post). done. }
  unfold save. destruct (current_scientist st) as [c|] eqn:Ec.
  - simpl. destruct (decide (id c = k)) as [<-|Hne].
    + rewrite lookup_insert_eq. intros [= <-].
      destruct (Hopen c Ec) as (pre & m & refs & -> & ? & ? & ? & ? & ? & Hbio).
      exists pre, m, refs, []. rewrite app_nil_r. split_and!; try done.
      simpl. by rewrite Hbio.
    + rewrite lookup_insert_ne by done. intros [(c' & Hc' & <-)|H]%Hmap; [|auto].
      rewrite Ec in Hc'. by simplify_eq.
  - intros [(c' & Hc' & _)|H]%Hmap; [congruence|auto].
Qed.

(** X1: the entity stored under [k] is built from the last span of the
    matches that starts an entity with id [k]: id, name, biography and
    inline connections come from that span, and no later match starts an
    entity with the same id. *)
Theorem X1_last_writer_wins (txt : text) (k : Z) (e : Scientist) :
  parse_scientist_entries txt !! k = Some e ->
  span_last (finditer bracket_pattern (clean txt)) k e.
Proof. apply last_span_of_entry. Qed.

Lemma X1_last_writer_wins_witness :
  exists e, parse_scientist_entries example5 !! 1%Z = Some e
            /\ biography e = str "second [3]"
            /\ span_last (finditer bracket_pattern (clean example5)) 1 e.
Proof.
  eexists. do 2 (split; [vm_compute; reflexivity|]).
  apply (X1_last_writer_wins example5 1). vm_compute. reflexivity.
Defined.

(** X2: the keys of the entity map are the ids of the matches that start
    an entity; a reference never makes an entry, and an entry once made is
    never removed. *)
Theorem X2_keys_are_entity_ids (txt : text) (k : Z) :
  is_Some (parse_scientist_entries txt !! k)
  <-> exists m, m ∈ finditer bracket_pattern (clean txt) /\ starts_id k m.
Proof.
  split.
  - intros [e (pre & m & refs & post & E & Hm & _)%last_span_of_entry].
    exists m. split; [|done]. rewrite E. set_solver.
  - intros (m & Hm & Hent & <-).
    unfold parse_scientist_entries, run, finish.
    destruct (inv_last_save txt
                (Z.of_nat (length txt)
                 - Z.of_nat (length (current_biography
                      (loop txt (finditer bracket_pattern (clean txt)) initial))))
                _ _ (inv_last_run txt)) as (_ & _ & Hdom).
    destruct (Hdom m Hm Hent) as [?|Hpend]; [done|].
    by apply save_pending_stored.
Qed.

(** ** Names and biographies *)

Lemma split_go_spec s :
  Forall (fun c => isspace c = false) (split_go s).1
  /\ Forall solid (split_go s).2.
Proof.
  induction s as [|c s [IHw IHws]]; [by split|]. simpl.
  destruct (split_go s) as [w ws]. simpl in *.
  destruct (isspace c) eqn:Ec; simpl.
  - split; [constructor|]. destruct w; simpl; [done|].
    constructor; [|done]. by split.
  - split; [by constructor|done].
Qed.

(** The tokens of [s.split()] are non-empty and hold no blank. *)
Lemma split_solid s : Forall solid (split s).
Proof.
  unfold split. pose proof (split_go_spec s) as [Hw Hws].
  destruct (split_go s) as [w ws]. simpl in *.
  destruct w; simpl; [done|]. constructor; [|done]. by split.
Qed.

(** X3: the name of every stored entity is one token of the text: it has
    at least two capitals and more than two characters, and it holds no
    blank. *)
Theorem X3_names_are_entity_tokens (txt : text) (k : Z) (e : Scientist) :
  parse_scientist_entries txt !! k = Some e ->
  entity_like (name e) /\ Forall (fun c => isspace c = false) (name e).
Proof.
  intros (pre & m & refs & post & _ & [(w & rest & Hw & Hlike) _] & _ & _ & _
          & (_ & Hname & _))%last_span_of_entry.
  rewrite Hname. unfold entity_name. rewrite Hw. simpl. split; [done|].
  pose proof (split_solid (strip m.2.2)) as Hs. fold (tokens m) in Hs.
  rewrite Hw in Hs. by inv Hs; match goal with H : solid w |- _ => destruct H end.
Qed.

Lemma X3_names_are_entity_tokens_witness :
  exists e, parse_scientist_entries example5 !! 2%Z = Some e
            /\ name e = str "SOLON" /\ entity_like (name e).
Proof.
  eexists. do 2 (split; [vm_compute; reflexivity|]).
  apply (X3_names_are_entity_tokens example5 2). vm_compute. reflexivity.
Defined.

(** What [lstrip] and [rstrip] take away are blanks at the ends. *)
Lemma lstrip_spec s :
  exists ws, s = ws ++ lstrip s /\ Forall (fun c => isspace c = true) ws
             /\ match lstrip s with [] => True | c :: _ => isspace c = false end.
Proof.
  induction s as [|c s (ws & E & Hws & Hhd)]; [by exists []|]. simpl.
  destruct (isspace c) eqn:Ec.
  - exists (c :: ws). split; [by rewrite E at 1|]. split; [by constructor|done].
  - exists []. done.
Qed.

Lemma rstrip_spec s :
  exists ws, s = rstrip s ++ ws /\ Forall (fun c => isspace c = true) ws
             /\ match last (rstrip s) with None => True | Some c => isspace c = false end.
Proof.
  unfold rstrip. destruct (lstrip_spec (rev s)) as (ws & E & Hws & Hhd).
  exists (rev ws). split_and!.
  - apply (f_equal (@rev ascii)) in E. by rewrite rev_involutive, rev_app_distr in E.
  - by apply Forall_rev.
  - destruct (lstrip (rev s)) as [|c l]; [done|]. simpl. by rewrite last_snoc.
Qed.

Lemma single_spaced_app_l a b : single_spaced (a ++ b) = true -> single_spaced a = true.
Proof.
  induction a as [|c a IH]; [done|]. simpl.
  rewrite !andb_true_iff. intros [Hc Hrest]. split; [|by apply IH].
  destruct (isspace c); [|done]. revert Hc. rewrite !andb_true_iff.
  intros [? Hnext]. split; [done|]. by destruct a.
Qed.

Lemma single_spaced_app_r a b : single_spaced (a ++ b) = true -> single_spaced b = true.
Proof.
  induction a as [|c a IH]; [done|]. simpl. rewrite andb_true_iff. intros [_ ?]. auto.
Qed.

(** [re.sub(r'\s+', ' ', s)] leaves single spaces only. *)
Lemma sub_blanks_single_spaced s pos :
  single_spaced (flat_map (render (str " ")) (scan_from blanks pos s)) = true
  /\ match s with
     | c :: _ => isspace c = false ->
         exists r, flat_map (render (str " ")) (scan_from blanks pos s) = c :: r
     | [] => True
     end.
Proof.
  remember (length s) as n eqn:Hn. revert s pos Hn.
  induction (lt_wf n) as [n _ IH]. intros s pos ->.
  destruct s as [|c s]; [done|].
  destruct (blanks (c :: s)) as [[ws r]|] eqn:E.
  - rewrite (scan_from_hit _ blanks_shrinks _ _ _ _ E). cbn [flat_map render].
    pose proof (blanks_shrinks _ _ _ E) as Hlt.
    apply blanks_Some in E as (E & Hne & Hws & Hr).
    destruct (IH (length r) Hlt r (pos + (length (c :: s) - length r)) eq_refl)
      as [Hok Hhd].
    split.
    + assert (Hsp : forall x, single_spaced (str " " ++ x)
                = match x with d :: _ => negb (isspace d) | [] => true end
                  && single_spaced x) by reflexivity.
      rewrite Hsp, Hok, andb_true_r.
      destruct r as [|d r]; [reflexivity|]. destruct (Hhd Hr) as [r' ->].
      by rewrite Hr.
    + intros Hc. destruct ws as [|w ws]; [done|]. inv Hws. simplify_eq/=. congruence.
  - rewrite (scan_from_miss _ _ _ _ E). cbn [flat_map render].
    assert (Hc : isspace c = false).
    { unfold blanks in E. simpl in E. destruct (isspace c); [|done].
      by destruct (span isspace s). }
    destruct (IH (length s) ltac:(simpl; lia) s (S pos) eq_refl) as [Hok _].
    split; [|by eexists]. change ([c] ++ ?x) with (c :: x).
    cbn [single_spaced]. by rewrite Hc, Hok.
Qed.

(** X4: the biography of every stored entity is tidy: each blank in it is
    one space that stands between two characters that are not blank. *)
Theorem X4_biographies_are_tidy (txt : text) (k : Z) (e : Scientist) :
  parse_scientist_entries txt !! k = Some e ->
  forall a c b, biography e = a ++ c :: b -> isspace c = true ->
    c = " "%char
    /\ (exists a' p, a = a' ++ [p] /\ isspace p = false)
    /\ (exists n b', b = n :: b' /\ isspace n = false).
Proof.
  intros (pre & m & refs & post & _ & _ & _ & _ & _ & (_ & _ & Hbio & _))%last_span_of_entry.
  rewrite Hbio. clear Hbio. generalize (buffer_of m refs). intros buf.
  unfold normalize. rewrite sub_unfold.
  set (mid := flat_map (render (str " ")) (scan_from blanks 0 (strip buf))).
  assert (Hmid : single_spaced mid = true) by apply sub_blanks_single_spaced.
  unfold strip. destruct (lstrip_spec mid) as (ws1 & E1 & _ & Hhd).
  destruct (rstrip_spec (lstrip mid)) as (ws2 & E2 & _ & Hlast).
  set (res := rstrip (lstrip mid)) in *.
  assert (Hres : single_spaced res = true).
  { rewrite E1 in Hmid. apply single_spaced_app_r in Hmid.
    rewrite E2 in Hmid. by apply single_spaced_app_l in Hmid. }
  assert (Hhead : match res with [] => True | c :: _ => isspace c = false end).
  { rewrite E2 in Hhd. destruct res; [done|]. exact Hhd. }
  clearbody res. clear -Hres Hhead Hlast.
  intros a c b -> Hc.
  assert (Hb : single_spaced (c :: b) = true) by (by apply single_spaced_app_r in Hres).
  simpl in Hb. rewrite Hc in Hb. apply andb_true_iff in Hb as [Hb _].
  apply andb_true_iff in Hb as [Heq Hnext]. apply Ascii.eqb_eq in Heq.
  split; [done|]. split.
  - destruct (decide (a = [])) as [->|Hne]; [simpl in Hhead; congruence|].
    destruct (exists_last Hne) as (a' & p & ->). exists a', p. split; [done|].
    destruct (isspace p) eqn:Hp; [|done]. exfalso.
    replace ((a' ++ [p]) ++ c :: b) with (a' ++ p :: c :: b) in Hres by reassoc.
    apply single_spaced_app_r in Hres. simpl in Hres. rewrite Hp, Hc in Hres.
    simpl in Hres. by rewrite andb_false_r in Hres.
  - destruct b as [|n b'].
    + rewrite last_snoc in Hlast. congruence.
    + exists n, b'. split; [done|]. by apply negb_true_iff.
Qed.

Lemma X4_biographies_are_tidy_witness :
  str " " = str " "
  /\ (exists a' p, str "second" = a' ++ [p] /\ isspace p = false)
  /\ (exists n b', str "[3]" = n :: b' /\ isspace n = false).
Proof.
  destruct (X4_biographies_are_tidy example5 1
              (mkScientist 1 (str "THALES") (str "second [3]") 0 {[3%Z]}))
    with (a := str "second") (c := " "%char) (b := str "[3]") as (_ & H);
    [vm_compute; reflexivity | reflexivity | reflexivity |].
  split; [reflexivity|exact H].
Defined.

(** ** The tags of a biography are the inline references *)

Lemma all_tags_free C s : Forall (fun c => c <> "["%char) s -> all_tags C s.
Proof.
  intros Hs a b ->. apply Forall_app in Hs as [_ Hs]. by inv Hs.
Qed.

Lemma all_tags_mono C C' s : C ⊆ C' -> all_tags C s -> all_tags C' s.
Proof.
  intros HC Hs a b E. destruct (Hs a b E) as (n & b' & ? & ? & ?).
  exists n, b'. split; [set_solver|done].
Qed.

Lemma all_tags_app C s t : all_tags C s -> all_tags C t -> all_tags C (s ++ t).
Proof.
  intros Hs Ht a b E. apply app_eq_inv in E as [(k & -> & E)|(k & -> & ->)].
  - destruct k as [|c k]; simplify_eq/=.
    + by apply (Ht []).
    + destruct (Hs a k eq_refl) as (n & b' & ? & ? & ->).
      exists n, (b' ++ t). split_and!; try done. reassoc.
  - by apply (Ht k b).
Qed.

Lemma all_tags_suffix C a s : all_tags C (a ++ s) -> all_tags C s.
Proof.
  intros H a' b ->. apply (H (a ++ a')). by rewrite <- app_assoc.
Qed.

Lemma repr_not_bracket n :
  (0 <= n)%Z -> Forall (fun c => c <> "["%char) (repr n).
Proof.
  intros Hn. destruct (repr_spec n Hn) as (Hds & _).
  eapply Forall_impl; [exact Hds|]. intros c Hc ->. discriminate.
Qed.

Lemma all_tags_tag n : (0 <= n)%Z -> all_tags {[n]} (tag_of n).
Proof.
  intros Hn a b E. unfold tag_of in E. destruct a as [|c a].
  - injection E as <-. exists n, []. split_and!; [set_solver|done|done].
  - exfalso. injection E as _ E. pose proof (repr_not_bracket n Hn) as Hr.
    assert (Hall : Forall (fun c => c <> "["%char) (repr n ++ ["]"%char])).
    { apply Forall_app. split; [done|]. by constructor. }
    rewrite E in Hall. apply Forall_app in Hall as [_ Hall]. by inv Hall.
Qed.

(** Blanks cut off behind a text do not reach into a word. *)
Lemma solid_prefix_cut (b ws w b' : text) :
  Forall (fun c => isspace c = false) w ->
  Forall (fun c => isspace c = true) ws ->
  b ++ ws = w ++ b' -> exists b'', b = w ++ b''.
Proof.
  intros Hw Hws. revert b. induction Hw as [|c w Hc _ IH]; intros b E; [by exists b|].
  destruct b as [|d b]; simplify_eq/=.
  - inv Hws. congruence.
  - destruct (IH b) as [b'' ->]; [done|]. by exists b''.
Qed.

Lemma tag_run_solid n :
  (0 <= n)%Z -> Forall (fun c => isspace c = false) (repr n ++ ["]"%char]).
Proof.
  intros Hn. destruct (tag_of_solid n Hn) as [_ H]. unfold tag_of in H. by inv H.
Qed.

Lemma all_tags_rstrip_cut C x ws :
  Forall (fun c => isspace c = true) ws -> all_tags C (x ++ ws) -> all_tags C x.
Proof.
  intros Hws H a b ->. destruct (H a (b ++ ws)) as (n & b' & Hn & Hpos & E); [reassoc|].
  replace (repr n ++ "]"%char :: b') with ((repr n ++ ["]"%char]) ++ b') in E by reassoc.
  destruct (solid_prefix_cut b ws _ b' (tag_run_solid n Hpos) Hws E) as [b'' ->].
  exists n, b''. split_and!; try done. reassoc.
Qed.

Lemma all_tags_strip C s : all_tags C s -> all_tags C (strip s).
Proof.
  intros H. unfold strip. destruct (lstrip_spec s) as (ws1 & E1 & _ & _).
  destruct (rstrip_spec (lstrip s)) as (ws2 & E2 & Hws2 & _).
  rewrite E1 in H. apply all_tags_suffix in H. rewrite E2 in H.
  by apply all_tags_rstrip_cut in H.
Qed.

(** [re.sub(r'\s+', ' ', s)] copies a run without blanks. *)
Lemma sub_blanks_copy w b pos :
  Forall (fun c => isspace c = false) w ->
  exists pos',
    flat_map (render (str " ")) (scan_from blanks pos (w ++ b))
    = w ++ flat_map (render (str " ")) (scan_from blanks pos' b).
Proof.
  intros Hw. revert pos. induction Hw as [|c w Hc Hw IH]; intros pos; [by exists pos|].
  assert (E : blanks (c :: w ++ b) = None).
  { unfold blanks. simpl. by rewrite Hc. }
  change ((c :: w) ++ b) with (c :: w ++ b).
  rewrite (scan_from_miss _ _ _ _ E). cbn [flat_map render].
  destruct (IH (S pos)) as [pos' ->]. by exists pos'.
Qed.

Lemma all_tags_sub_blanks C s pos :
  all_tags C s ->
  all_tags C (flat_map (render (str " ")) (scan_from blanks pos s)).
Proof.
  remember (length s) as n eqn:Hn. revert s pos Hn.
  induction (lt_wf n) as [n _ IH]. intros s pos -> Hs.
  destruct s as [|c s]; [by apply all_tags_free|].
  destruct (blanks (c :: s)) as [[ws r]|] eqn:E.
  - rewrite (scan_from_hit _ blanks_shrinks _ _ _ _ E). cbn [flat_map render].
    pose proof (blanks_shrinks _ _ _ E) as Hlt.
    apply blanks_Some in E as (E & _). rewrite E in Hs.
    apply all_tags_suffix in Hs. apply all_tags_app.
    + apply all_tags_free. by repeat constructor.
    + by apply (IH (length r)).
  - rewrite (scan_from_miss _ _ _ _ E). cbn [flat_map render].
    destruct (decide (c = "["%char)) as [->|Hc].
    + destruct (Hs [] s eq_refl) as (k & b' & Hk & Hpos & ->).
      replace (repr k ++ "]"%char :: b') with ((repr k ++ ["]"%char]) ++ b') by reassoc.
      destruct (sub_blanks_copy (repr k ++ ["]"%char]) b' (S pos) (tag_run_solid k Hpos))
        as [pos' ->].
      set (x := flat_map _ _).
      replace (["["%char] ++ (repr k ++ ["]"%char]) ++ x) with (tag_of k ++ x)
        by (unfold tag_of; reassoc).
      subst x. apply all_tags_app.
      * apply (all_tags_mono {[k]}); [set_solver|]. by apply all_tags_tag.
      * apply (IH (length b')); [simpl; rewrite length_app; simpl; lia|done|].
        apply (all_tags_suffix C ("["%char :: repr k ++ ["]"%char])).
        replace (("["%char :: repr k ++ ["]"%char]) ++ b')
          with ("["%char :: repr k ++ "]"%char :: b') by reassoc.
        done.
    + apply all_tags_app.
      * apply all_tags_free. by repeat constructor.
      * apply (IH (length s)); [simpl; lia|done|].
        by apply (all_tags_suffix C [c]).
Qed.

Lemma all_tags_normalize C s : all_tags C s -> all_tags C (normalize s).
Proof.
  intros H. unfold normalize. apply all_tags_strip. rewrite sub_unfold.
  by apply all_tags_sub_blanks, all_tags_strip.
Qed.

(** A match of the tag pattern stands in the text. *)
Lemma hits_ref_tag_occur s pos p ds :
  (p, ds) ∈ hits (scan_from ref_tag pos s) ->
  exists a b, s = a ++ "["%char :: ds ++ "]"%char :: b
              /\ Forall (fun c => isdigit c = true) ds.
Proof.
  remember (length s) as n eqn:Hn. revert s pos Hn.
  induction (lt_wf n) as [n _ IH]. intros s pos ->.
  destruct s as [|c s]; [by intros ?%elem_of_nil|].
  destruct (ref_tag (c :: s)) as [[m r]|] eqn:E.
  - rewrite (scan_from_hit _ ref_tag_shrinks _ _ _ _ E). cbn [hits omap].
    pose proof (ref_tag_shrinks _ _ _ E) as Hlt.
    apply ref_tag_Some in E as (E & _ & Hds).
    intros [[= -> ->]|Hin]%elem_of_cons.
    + by exists [], r.
    + destruct (IH (length r) Hlt r _ eq_refl Hin) as (a & b & -> & Hds').
      exists ("["%char :: m ++ "]"%char :: a), b. split; [|done].
      rewrite E. reassoc.
  - rewrite (scan_from_miss _ _ _ _ E). cbn [hits omap]. intros Hin.
    destruct (IH (length s) (Nat.lt_succ_diag_r _) s _ eq_refl Hin) as (a & b & -> & Hds').
    by exists (c :: a), b.
Qed.

(** A run of digits in front of a closing bracket is determined. *)
Lemma digit_run_inj (ds ds' b b' : text) :
  Forall (fun c => isdigit c = true) ds ->
  Forall (fun c => isdigit c = true) ds' ->
  ds ++ "]"%char :: b = ds' ++ "]"%char :: b' -> ds = ds'.
Proof.
  intros Hds. revert ds'. induction Hds as [|c ds Hc _ IH]; intros ds' Hds' E.
  - destruct Hds' as [|c' ds' Hc' _]; [done|]. simplify_eq/=.
  - destruct Hds' as [|c' ds' Hc' Hds']; simplify_eq/=. f_equal. by apply IH.
Qed.

Lemma all_tags_tag_ids C s : all_tags C s -> tag_ids s ⊆ C.
Proof.
  intros Hs n (ds & Hin & <-)%elem_of_tag_ids. unfold findall in Hin.
  apply list_elem_of_fmap in Hin as ([p ds'] & -> & Hin). simpl.
  apply hits_ref_tag_occur in Hin as (a & b & -> & Hds).
  destruct (Hs a _ eq_refl) as (n & b' & Hn & Hpos & E).
  destruct (repr_spec n Hpos) as (Hr & _ & Hint).
  apply digit_run_inj in E; [|done..]. by rewrite E, Hint.
Qed.

(** What the string primitives keep of a property of all characters. *)
Section Chars.
Variable P : ascii -> Prop.

Lemma lstrip_chars s : Forall P s -> Forall P (lstrip s).
Proof.
  induction 1 as [|c s Hc Hs IH]; [done|]. simpl.
  destruct (isspace c); [done|]. by constructor.
Qed.

Lemma strip_chars s : Forall P s -> Forall P (strip s).
Proof.
  intros Hs. unfold strip, rstrip. by apply Forall_rev, lstrip_chars, Forall_rev, lstrip_chars.
Qed.

Lemma split_go_chars s :
  Forall P s -> Forall P (split_go s).1 /\ Forall (Forall P) (split_go s).2.
Proof.
  induction 1 as [|c s Hc Hs [IHw IHws]]; [by split|]. simpl.
  destruct (split_go s) as [w ws]. simpl in *.
  destruct (isspace c); simpl.
  - split; [done|]. destruct w; simpl; [done|]. by constructor.
  - split; [by constructor|done].
Qed.

Lemma split_chars s : Forall P s -> Forall (Forall P) (split s).
Proof.
  intros Hs. unfold split. destruct (split_go_chars s Hs) as [Hw Hws].
  destruct (split_go s) as [w ws]. simpl in *.
  destruct w; simpl; [done|]. by constructor.
Qed.

Lemma join_chars sep ws :
  Forall P sep -> Forall (Forall P) ws -> Forall P (join sep ws).
Proof.
  intros Hsep. induction 1 as [|w ws Hw Hws IH]; [done|]. simpl.
  destruct ws as [|w' ws]; [done|]. apply Forall_app. split; [done|].
  apply Forall_app. by split.
Qed.
End Chars.

Lemma all_tags_seed C m : tag_match m -> all_tags C (seed m).
Proof.
  intros (_ & _ & Hfree). apply all_tags_free. unfold seed, tokens.
  apply join_chars; [by repeat constructor|].
  apply Forall_tail, split_chars, strip_chars, Hfree.
Qed.

Lemma all_tags_piece r : tag_match r -> all_tags {[int r.2.1]} (piece r).
Proof.
  intros (_ & Hds & Hfree). unfold piece.
  set (x := match tokens r with [] => [] | _ => _ end).
  replace (str " [" ++ repr (int r.2.1) ++ str "]" ++ x)
    with (str " " ++ tag_of (int r.2.1) ++ x) by (unfold tag_of; reassoc).
  subst x.
  apply all_tags_app; [apply all_tags_free; by repeat constructor|].
  apply all_tags_app; [by apply all_tags_tag, int_nonneg|].
  apply all_tags_free. destruct (tokens r); [done|].
  constructor; [done|]. by apply strip_chars.
Qed.

Lemma all_tags_pieces refs :
  Forall tag_match refs -> all_tags (ref_ids refs) (concat (piece <$> refs)).
Proof.
  induction 1 as [|r refs Hr _ IH]; [by apply all_tags_free|].
  unfold ref_ids. cbn [fmap list_fmap concat list_to_set].
  apply all_tags_app.
  - apply (all_tags_mono {[int r.2.1]}); [set_solver|]. by apply all_tags_piece.
  - eapply all_tags_mono; [|exact IH]. unfold ref_ids. set_solver.
Qed.

(** On the entries of the parser the tags of the biography are the inline
    references. *)
Lemma parse_tags_connections txt k e :
  parse_scientist_entries txt !! k = Some e ->
  tag_ids (biography e) = connections e.
Proof.
  intros Hk. apply set_eq_subseteq. split.
  - destruct (last_span_of_entry txt k e Hk)
      as (pre & m & refs & post & Hms & _ & _ & _ & _ & _ & _ & Hbio & Hconn).
    destruct (finditer_bracket_layout (clean txt)) as [Hlay _].
    rewrite Hms in Hlay. apply Forall_app in Hlay as [_ Hlay].
    apply Forall_cons in Hlay as [[Hm _] Hlay].
    apply Forall_app in Hlay as [Hrefs _].
    rewrite Hbio, Hconn. apply all_tags_tag_ids, all_tags_normalize.
    apply all_tags_app; [by apply all_tags_seed|].
    apply all_tags_pieces. eapply Forall_impl; [exact Hrefs|]. by intros ? [? _].
  - destruct (parse_recorded txt) as [Hrec _].
    exact (Hrec k e Hk).
Qed.

(** X5: for every stored entity the ids of the bracket tags of its biography
    are its inline references: the parser leaves no tag in a biography
    that it has not recorded, and records none that is not there. *)
Theorem X5_tags_are_inline_references (txt : text) (k : Z) (e : Scientist) :
  parse_scientist_entries txt !! k = Some e ->
  tag_ids (biography e) = connections e.
Proof. apply parse_tags_connections. Qed.

Lemma X5_tags_are_inline_references_witness :
  tag_ids (str "second [3]") = {[3%Z]}.
Proof.
  assert (H : parse_scientist_entries example5 !! 1%Z
              = Some (mkScientist 1 (str "THALES") (str "second [3]") 0 {[3%Z]}))
    by (vm_compute; reflexivity).
  exact (X5_tags_are_inline_references _ _ _ H).
Defined.

Lemma extract_connections_parse txt :
  extract_connections (parse_scientist_entries txt) = parse_scientist_entries txt.
Proof.
  apply map_eq. intros k. rewrite lookup_extract_connections.
  destruct (parse_scientist_entries txt !! k) as [e|] eqn:Hk; [|done].
  simpl. f_equal. destruct (resolve_spec k e) as (? & ? & ? & ? & Hc).
  apply Scientist_eq; try done.
  rewrite Hc, (parse_tags_connections txt k e Hk). set_solver.
Qed.

(** X6: after the parser the resolver finds nothing to add: it returns the
    map of the parser unchanged. *)
Theorem X6_resolver_adds_nothing_after_parser (txt : text) :
  extract_connections (parse_scientist_entries txt) = parse_scientist_entries txt.
Proof. apply extract_connections_parse. Qed.

(** ** The resolver and the graph on any entity map *)

Lemma resolve_idem k s : resolve k (resolve k s) = resolve k s.
Proof.
  destruct (resolve_spec k s) as (Hi & Hn & Hb & Hp & Hc).
  destruct (resolve_spec k (resolve k s)) as (Hi' & Hn' & Hb' & Hp' & Hc').
  apply Scientist_eq; try done. rewrite Hc', Hb, Hc. set_solver.
Qed.

(** X7: the resolver is idempotent on every entity map: a second pass
    changes nothing. *)
Theorem X7_resolver_idempotent (m : gmap Z Scientist) :
  extract_connections (extract_connections m) = extract_connections m.
Proof.
  apply map_eq. intros k. rewrite !lookup_extract_connections.
  destruct (m !! k) as [e|]; [|done]. simpl. f_equal. apply resolve_idem.
Qed.

Lemma keyed_ids (m : gmap Z Scientist) :
  keyed m -> id <$> (map_to_list m).*2 = (map_to_list m).*1.
Proof.
  intros Hm. rewrite <- list_fmap_compose. apply list_fmap_ext.
  intros i [k e] Hin. simpl. apply (Hm k e).
  by apply elem_of_map_to_list, list_elem_of_lookup_2 with i.
Qed.

Lemma elem_of_values_keyed (m : gmap Z Scientist) e :
  keyed m -> e ∈ (map_to_list m).*2 <-> m !! id e = Some e.
Proof.
  intros Hm. rewrite list_elem_of_fmap. split.
  - intros ([k e'] & -> & Hin%elem_of_map_to_list). simpl.
    by rewrite (Hm k e' Hin).
  - intros He. exists (id e, e). split; [done|]. by apply elem_of_map_to_list.
Qed.

(** X8: the network of a text.  The ids of the nodes are pairwise distinct,
    the nodes are the entries of the parser, and there is a link from [s]
    to [t] exactly when the node with id [s] has a tag with id [t] in its
    biography, its own id included. *)
Theorem X8_network_of_text (txt : text) :
  let net := build_network txt in
  NoDup (id <$> nodes net)
  /\ (forall e, e ∈ nodes net <-> parse_scientist_entries txt !! id e = Some e)
  /\ (forall s t, mkRelationship s t ∈ links net
        <-> exists e, e ∈ nodes net /\ id e = s /\ t ∈ tag_ids (biography e)).
Proof.
  unfold build_network. rewrite extract_connections_parse. cbn [nodes links].
  pose proof (parse_keyed txt) as Hkeyed. split_and!.
  - rewrite (keyed_ids _ Hkeyed). apply NoDup_fst_map_to_list.
  - intros e. by apply elem_of_values_keyed.
  - intros s t. rewrite elem_of_create_relationships. cbn [source target]. split.
    + intros (e & He & Ht). exists e.
      pose proof (Hkeyed s e He) as Hid. simpl in Hid. split_and!; [|done|].
      * apply elem_of_values_keyed; [done|]. by rewrite Hid.
      * by rewrite (parse_tags_connections txt s e He).
    + intros (e & He%elem_of_values_keyed & <- & Ht); [|done]. exists e.
      split; [done|]. by rewrite <- (parse_tags_connections txt (id e) e He).
Qed.

Lemma length_edges_of k e : length (edges_of k e) = size (connections e).
Proof. unfold edges_of. by rewrite length_fmap. Qed.

Lemma length_create_relationships (m : gmap Z Scientist) :
  length (create_relationships m []) = total_connections m.
Proof.
  unfold create_relationships, total_connections. cbn [app].
  induction (map_to_list m) as [|[k e] l IH]; [done|].
  cbn [mbind list_bind fmap list_fmap sum_list sum_list_with].
  rewrite length_app, length_edges_of. simpl. by rewrite IH.
Qed.

(** X9: the number of relationships that [create_relationships] makes for
    an empty list is the total of connections that the resolver reports. *)
Theorem X9_relationships_count (m : gmap Z Scientist) :
  length (create_relationships m []) = total_connections m.
Proof. apply length_create_relationships. Qed.

(** X10: every entity is stored under its own id, and neither an id nor a
    reference is negative. *)
Theorem X10_ids_are_keys_and_not_negative (txt : text) (k : Z) (e : Scientist) :
  parse_scientist_entries txt !! k = Some e ->
  id e = k /\ (0 <= k)%Z /\ forall n, n ∈ connections e -> (0 <= n)%Z.
Proof.
  intros Hk.
  destruct (last_span_of_entry txt k e Hk)
    as (pre & m & refs & post & Hms & [_ Hm] & _ & _ & _ & Hid & _ & _ & Hconn).
  destruct (finditer_bracket_layout (clean txt)) as [Hlay _].
  rewrite Hms in Hlay. apply Forall_app in Hlay as [_ Hlay].
  apply Forall_cons in Hlay as [[(_ & Hds & _) _] Hlay].
  apply Forall_app in Hlay as [Hrefs _]. split_and!.
  - by rewrite Hid.
  - rewrite <- Hm. by apply int_nonneg.
  - intros n. rewrite Hconn. unfold ref_ids. rewrite elem_of_list_to_set.
    intros (r & -> & Hr)%list_elem_of_fmap.
    rewrite Forall_forall in Hrefs. destruct (Hrefs r Hr) as [(_ & Hr' & _) _].
    by apply int_nonneg.
Qed.

Lemma X10_ids_are_keys_and_not_negative_witness :
  exists e, parse_scientist_entries example5 !! 2%Z = Some e
    /\ id e = 2%Z /\ (0 <= 2)%Z /\ forall n, n ∈ connections e -> (0 <= n)%Z.
Proof.
  exists (mkScientist 2 (str "SOLON") (str "law [7] more") 0 {[7%Z]}).
  assert (H : parse_scientist_entries example5 !! 2%Z
              = Some (mkScientist 2 (str "SOLON") (str "law [7] more") 0 {[7%Z]}))
    by (vm_compute; reflexivity).
  split; [exact H|]. exact (X10_ids_are_keys_and_not_negative _ _ _ H).
Defined.


(** ** The columns of a page *)

Lemma filter_split {A} (p : A -> bool) (l : list A) :
  List.filter p l ++ List.filter (fun x => negb (p x)) l ≡ₚ l.
Proof.
  induction l as [|x l IH]; [done|]. simpl. destruct (p x); simpl.
  - by constructor.
  - rewrite <- Permutation_middle. by constructor.
Qed.


Lemma column_text_occurs w ws :
  w ∈ ws -> exists p q, column_text ws = p ++ w_text w ++ q.
Proof.
  intros (l1 & l2 & ->)%list_elem_of_split.
  destruct (column_text_split l1 w l2) as [p ->]. eauto.
Qed.

(** X11: the two columns hold every content word exactly once, and the
    text of each content word stands in the text of the page. *)
Theorem X11_columns_keep_every_content_word (words : list Word) (width : Qc) :
  let cw := content_words words in
  let boundary := column_boundary cw width in
  left_column_words cw boundary ++ right_column_words cw boundary ≡ₚ cw
  /\ (words <> [] -> forall w, w ∈ cw ->
        exists p q, layout words width = p ++ w_text w ++ q).
Proof.
  intros cw boundary.
  assert (Hperm : left_column_words cw boundary ++ right_column_words cw boundary ≡ₚ cw).
  { unfold left_column_words, right_column_words, sort_by_top.
    rewrite !sort_by_perm. apply filter_split. }
  split; [done|]. intros Hne w Hw.
  assert (E : layout words width
              = column_text (left_column_words cw boundary)
                ++ [nl; nl] ++ column_text (right_column_words cw boundary)).
  { unfold layout. by destruct words. }
  rewrite E. rewrite <- Hperm in Hw. apply elem_of_app in Hw as [Hw|Hw].
  - destruct (column_text_occurs _ _ Hw) as (p & q & ->).
    exists p, (q ++ [nl; nl] ++ column_text (right_column_words cw boundary)).
    reassoc.
  - destruct (column_text_occurs _ _ Hw) as (p & q & ->).
    exists (column_text (left_column_words cw boundary) ++ [nl; nl] ++ p), q.
    reassoc.
Qed.













(** ** The aggregated text *)

Lemma layout_cons w ws width : layout (w :: ws) width <> [].
Proof.
  unfold layout. intros E. apply app_eq_nil in E as [_ E]. discriminate E.
Qed.

Lemma index_Ok pages j p :
  (0 <= j)%Z -> pages !! Z.to_nat j = Some p -> index pages j = Ok p.
Proof.
  intros Hj Hp. unfold index.
  destruct (Z.ltb_spec j 0); [lia|].
  destruct (Z.ltb_spec j 0); [lia|]. by rewrite Hp.
Qed.

(** One round of the loop on a page that reads. *)
Lemma pages_loop_step pages start_idx i n acc p :
  (0 <= start_idx + i)%Z ->
  pages !! Z.to_nat (start_idx + i) = Some p -> readable p ->
  pages_loop pages start_idx i (S n) acc
  = pages_loop pages start_idx (i + 1) n (acc ++ contribution (start_idx + i) p).
Proof.
  intros Hi Hp [ws Hws]. cbn [pages_loop].
  assert (Hlt : Z.to_nat (start_idx + i) < length pages) by (by eapply lookup_lt_Some).
  destruct (Z.leb_spec (Z.of_nat (length pages)) (start_idx + i)); [lia|].
  rewrite (index_Ok _ _ _ Hi Hp). cbn [mbind result_bind].
  unfold extract_text_in_columns, contribution.
  rewrite Hws. cbn [mbind result_bind]. destruct ws as [|w ws].
  - cbn [layout]. by rewrite app_nil_r.
  - destruct (layout (w :: ws) (width p)) eqn:E; [by apply layout_cons in E|].
    by rewrite <- E.
Qed.

Lemma pages_loop_readable pages start_idx n : forall i acc,
  (0 <= start_idx + i)%Z -> Forall readable pages ->
  pages_loop pages start_idx i n acc
  = Ok (acc ++ concat (imap (fun j p => contribution (start_idx + i + Z.of_nat j) p)
                         (take n (drop (Z.to_nat (start_idx + i)) pages)))).
Proof.
  induction n as [|n IH]; intros i acc Hi Hall.
  { cbn [pages_loop take imap concat]. by rewrite app_nil_r. }
  destruct (pages !! Z.to_nat (start_idx + i)) as [p|] eqn:Hp.
  - rewrite (pages_loop_step _ _ _ _ _ p Hi Hp);
      [|by eapply Forall_lookup_1 in Hp].
    rewrite IH; [|lia|done]. f_equal.
    rewrite (drop_S _ _ _ Hp). cbn [take imap concat].
    replace (start_idx + i + Z.of_nat 0)%Z with (start_idx + i)%Z by lia.
    rewrite <- app_assoc. do 2 f_equal.
    replace (Z.to_nat (start_idx + (i + 1))) with (S (Z.to_nat (start_idx + i))) by lia.
    f_equal. apply imap_ext. intros j q _. simpl. f_equal. lia.
  - apply lookup_ge_None in Hp. cbn [pages_loop].
    destruct (Z.leb_spec (Z.of_nat (length pages)) (start_idx + i)); [|lia].
    rewrite drop_ge by done. cbn [take imap concat]. by rewrite app_nil_r.
Qed.

Lemma pages_loop_text pages start_page num_pages :
  (1 <= start_page)%Z ->
  Forall readable pages ->
  extract_text_from_pdf (Ok pages) start_page num_pages
  = concat (imap (fun j p => contribution (start_page - 1 + Z.of_nat j) p)
              (take (Z.to_nat num_pages) (drop (Z.to_nat (start_page - 1)) pages))).
Proof.
  intros Hstart Hall. unfold extract_text_from_pdf. cbn [mbind result_bind].
  rewrite pages_loop_readable by (done || lia). cbn [app].
  replace (start_page - 1 + 0)%Z with (start_page - 1)%Z by lia. done.
Qed.

(** X14: the aggregated text of a document whose pages all read, from a
    start page of 1 or more: the contributions of the pages of the range,
    in order, as far as the document goes.  A page without words gives
    nothing, not even a marker. *)
Theorem X14_text_of_readable_pages (pages : list Page) (start_page num_pages : Z) :
  (1 <= start_page)%Z ->
  Forall readable pages ->
  extract_text_from_pdf (Ok pages) start_page num_pages
  = concat (imap (fun j p => contribution (start_page - 1 + Z.of_nat j) p)
              (take (Z.to_nat num_pages) (drop (Z.to_nat (start_page - 1)) pages))).
Proof. apply pages_loop_text. Qed.

Lemma X14_text_of_readable_pages_witness :
  extract_text_from_pdf (Ok [page_one; blank_page; page_two]) 1 3
  = concat [contribution 0 page_one; contribution 1 blank_page; contribution 2 page_two].
Proof.
  apply (X14_text_of_readable_pages [page_one; blank_page; page_two] 1 3).
  - lia.
  - repeat constructor; eexists; reflexivity.
Defined.

(** X15: a start page in front of the first page.  Start page 0 does not
    fail: the run of one page reads the last page of the document and
    labels it [PAGE_0].  A start page so far in front that the index
    leaves the document ends the run with the empty text. *)
Theorem X15_start_before_first_page (pages : list Page) :
  (forall p, last pages = Some p -> readable p ->
     extract_text_from_pdf (Ok pages) 0 1 = contribution (-1) p)
  /\ page_header (-1) = [nl] ++ str "---PAGE_0---" ++ [nl]
  /\ (forall start_page num_pages,
        (start_page - 1 < - Z.of_nat (length pages))%Z -> (1 <= num_pages)%Z ->
        extract_text_from_pdf (Ok pages) start_page num_pages = []).
Proof.
  split_and!.
  - intros p Hlast [ws Hws]. unfold extract_text_from_pdf. cbn [mbind result_bind].
    change (Z.to_nat 1) with 1. cbn [pages_loop].
    destruct (Z.leb_spec (Z.of_nat (length pages)) (0 - 1 + 0)); [lia|].
    assert (Hidx : index pages (0 - 1 + 0) = Ok p).
    { unfold index. rewrite last_lookup in Hlast.
      assert (Hlen : 0 < length pages).
      { destruct pages; [discriminate|simpl; lia]. }
      destruct (Z.ltb_spec (0 - 1 + 0) 0); [|lia].
      destruct (Z.ltb_spec (Z.of_nat (length pages) + (0 - 1 + 0)) 0); [lia|].
      replace (Z.to_nat (Z.of_nat (length pages) + (0 - 1 + 0)))
        with (pred (length pages)) by lia.
      by rewrite Hlast. }
    rewrite Hidx. cbn [mbind result_bind].
    unfold extract_text_in_columns, contribution. rewrite Hws.
    cbn [mbind result_bind pages_loop]. destruct ws as [|w ws]; [done|].
    destruct (layout (w :: ws) (width p)) eqn:E; [by apply layout_cons in E|].
    by rewrite <- E.
  - reflexivity.
  - intros start_page num_pages Hlt Hn. unfold extract_text_from_pdf.
    cbn [mbind result_bind].
    destruct (Z.to_nat num_pages) as [|n] eqn:En; [lia|]. cbn [pages_loop].
    destruct (Z.leb_spec (Z.of_nat (length pages)) (start_page - 1 + 0)); [lia|].
    assert (Hidx : index pages (start_page - 1 + 0) = Raise (str "list index out of range")).
    { unfold index. destruct (Z.ltb_spec (start_page - 1 + 0) 0); [|lia].
      destruct (Z.ltb_spec (Z.of_nat (length pages) + (start_page - 1 + 0)) 0); [done|lia]. }
    by rewrite Hidx.
Qed.


(** ** The document of a run *)

Lemma document_consistent (m : gmap Z Scientist) :
  keyed m ->
  let doc := generate_network_json m (create_relationships m []) in
  total_scientists (metadata doc) = length (doc_nodes doc)
  /\ total_relationships (metadata doc) = length (doc_links doc)
  /\ length (doc_links doc)
     = sum_list ((fun n => length (node_connections n)) <$> doc_nodes doc)
  /\ NoDup (node_id <$> doc_nodes doc)
  /\ Forall (fun n => biography_length n = length (biography_full n)
                      /\ NoDup (node_connections n)) (doc_nodes doc)
  /\ (forall s t, mkRelationship s t ∈ doc_links doc
        <-> exists n, n ∈ doc_nodes doc /\ node_id n = s /\ t ∈ node_connections n).
Proof.
  intros Hm doc. unfold doc, generate_network_json.
  cbn [metadata doc_nodes doc_links total_scientists total_relationships].
  split_and!.
  - by rewrite !length_fmap, length_map_to_list.
  - done.
  - rewrite length_create_relationships. unfold total_connections.
    rewrite <- !list_fmap_compose. done.
  - rewrite <- list_fmap_compose.
    change (node_id ∘ to_dict) with id. rewrite (keyed_ids _ Hm).
    apply NoDup_fst_map_to_list.
  - apply Forall_fmap, Forall_forall. intros e _. split; [done|].
    cbn [to_dict node_connections compose]. apply NoDup_elements.
  - intros s t. rewrite elem_of_create_relationships. cbn [source target]. split.
    + intros (e & He & Ht). exists (to_dict e). split_and!.
      * apply list_elem_of_fmap_2, elem_of_values_keyed; [done|].
        by rewrite (Hm s e He).
      * apply (Hm s e He).
      * cbn [to_dict node_connections]. by apply elem_of_elements.
    + intros (n & (e & -> & He)%list_elem_of_fmap & <- & Ht).
      apply elem_of_values_keyed in He; [|done]. exists e. split; [done|].
      cbn [to_dict node_connections] in Ht. by apply elem_of_elements in Ht.
Qed.

(** X16: the document of a run agrees with itself.  The counts of the
    metadata are the numbers of nodes and of links; the links are as many
    as the connections listed on the nodes; node ids are pairwise distinct;
    a node gives the length of its biography and lists no connection
    twice; and the links are the pairs of a node id and a listed
    connection of that node. *)
Theorem X16_document_is_consistent (pdf : result (list Page))
    (start_page num_pages : Z) (doc : Document) :
  process pdf start_page num_pages = Some doc ->
  total_scientists (metadata doc) = length (doc_nodes doc)
  /\ total_relationships (metadata doc) = length (doc_links doc)
  /\ length (doc_links doc)
     = sum_list ((fun n => length (node_connections n)) <$> doc_nodes doc)
  /\ NoDup (node_id <$> doc_nodes doc)
  /\ Forall (fun n => biography_length n = length (biography_full n)
                      /\ NoDup (node_connections n)) (doc_nodes doc)
  /\ (forall s t, mkRelationship s t ∈ doc_links doc
        <-> exists n, n ∈ doc_nodes doc /\ node_id n = s /\ t ∈ node_connections n).
Proof.
  unfold process. destruct (extract_text_from_pdf pdf start_page num_pages) as [|c txt];
    [discriminate|].
  intros [= <-]. apply document_consistent, extract_connections_keyed, parse_keyed.
Qed.

Lemma X16_document_is_consistent_witness :
  exists doc, process (Ok [page_one; page_two]) 1 2 = Some doc
    /\ total_scientists (metadata doc) = length (doc_nodes doc)
    /\ total_relationships (metadata doc) = length (doc_links doc).
Proof.
  destruct (process (Ok [page_one; page_two]) 1 2) as [doc|] eqn:E;
    [|vm_compute in E; discriminate E].
  exists doc. split; [reflexivity|].
  destruct (X16_document_is_consistent _ _ _ _ E) as (H1 & H2 & _).
  split; [exact H1|exact H2].
Defined.




(** ** The most connected scientists *)

Lemma filter_insert_by {A} (key : A -> nat) (c : nat) (x : A) (l : list A) :
  List.filter (fun s => key s =? c) (insert_by (fun a b => key b <=? key a) x l)
  = List.filter (fun s => key s =? c) (x :: l).
Proof.
  induction l as [|y l IH]; [done|]. cbn [insert_by].
  destruct (Nat.leb_spec (key y) (key x)) as [Hle|Hlt]; [done|].
  cbn [List.filter] in *. rewrite IH.
  destruct (Nat.eqb_spec (key x) c) as [Hx|Hx]; [|done].
  destruct (Nat.eqb_spec (key y) c) as [Hy|Hy]; [lia|done].
Qed.

(** The sort is stable: the elements of one key keep their order. *)
Lemma filter_sort_by {A} (key : A -> nat) (c : nat) (l : list A) :
  List.filter (fun s => key s =? c) (sort_by (fun a b => key b <=? key a) l)
  = List.filter (fun s => key s =? c) l.
Proof.
  induction l as [|x l IH]; [done|]. unfold sort_by. cbn [foldr].
  rewrite filter_insert_by. cbn [List.filter].
  fold (sort_by (fun a b => key b <=? key a) l). by rewrite IH.
Qed.

Lemma StronglySorted_mono {A} (R S : A -> A -> Prop) l :
  (forall a b, R a b -> S a b) -> StronglySorted R l -> StronglySorted S l.
Proof.
  intros HRS. induction 1 as [|x l _ IH Hx]; constructor; [done|].
  eapply Forall_impl; [exact Hx|]. intros y. apply HRS.
Qed.

(** X18: the ten most connected scientists.  The list has ten entries, or
    all scientists if there are fewer; it is in descending order of
    degree; no scientist left out has a higher degree than a listed one;
    and scientists of equal degree stand in the order of the dictionary. *)
Theorem X18_most_connected (values : list Scientist) :
  let top := most_connected values in
  length top = Nat.min 10 (length values)
  /\ StronglySorted (fun a b => degree b <= degree a) top
  /\ (exists rest, top ++ rest ≡ₚ values
        /\ forall a b, a ∈ top -> b ∈ rest -> degree b <= degree a)
  /\ (forall c, List.filter (fun s => degree s =? c) top
                `prefix_of` List.filter (fun s => degree s =? c) values).
Proof.
  intros top. unfold top, most_connected.
  set (le := fun a b => degree b <=? degree a).
  assert (Htotal : forall a b, le a b = true \/ le b a = true).
  { intros a b. unfold le. rewrite !Nat.leb_le. lia. }
  assert (Htrans : forall a b c, le a b = true -> le b c = true -> le a c = true).
  { intros a b c. unfold le. rewrite !Nat.leb_le. lia. }
  pose proof (sort_by_sorted le Htotal Htrans values) as Hsorted.
  rewrite <- (take_drop 10 (sort_by le values)) in Hsorted.
  split_and!.
  - by rewrite length_take, (sort_by_perm le).
  - apply StronglySorted_app_1_l in Hsorted.
    eapply StronglySorted_mono; [|exact Hsorted].
    intros a b. unfold le. by rewrite Nat.leb_le.
  - exists (drop 10 (sort_by le values)). split.
    + by rewrite take_drop, (sort_by_perm le).
    + intros a b Ha Hb.
      pose proof (StronglySorted_app_1_elem_of _ _ _ a b Hsorted Ha Hb) as H.
      unfold le in H. by apply Nat.leb_le in H.
  - intros c. rewrite <- (filter_sort_by degree c values). fold le.
    rewrite <- (take_drop 10 (sort_by le values)) at 2.
    rewrite List.filter_app. by apply prefix_app_r.
Qed.


(** ** One page number for all entities *)

(** The first match of a scan is a match at some offset. *)
Lemma first_hit_occurs s : forall pos ds,
  head (hits (scan_from page_marker pos s)).*2 = Some ds ->
  exists a r, s = a ++ str "---PAGE_" ++ ds ++ str "---" ++ r.
Proof.
  induction s as [|c s IH]; intros pos ds; [discriminate|].
  destruct (page_marker (c :: s)) as [[m r]|] eqn:E.
  - rewrite (scan_from_hit _ page_marker_shrinks _ _ _ _ E). cbn. intros [= ->].
    apply page_marker_Some in E as (E & _). exists [], r. by rewrite E.
  - rewrite (scan_from_miss _ _ _ _ E). cbn [hits omap]. intros H.
    destruct (IH _ _ H) as (a & r & ->). by exists (c :: a), r.
Qed.

(** No page marker begins inside the digits and the closing dashes of
    another and ends before that one does. *)
Lemma no_marker_in_tail (ds a rest : text) :
  Forall (fun c => isdigit c = true) ds ->
  ds ++ str "---" = a ++ str "---PAGE_" ++ rest -> False.
Proof.
  intros Hds. revert a. induction Hds as [|d ds Hd _ IH]; intros a E.
  - apply (f_equal length) in E. simpl in E. rewrite length_app in E. simpl in E. lia.
  - destruct a as [|x a]; simplify_eq/=. by eapply IH.
Qed.

Lemma no_marker_in_marker (ds a rest : text) :
  Forall (fun c => isdigit c = true) ds ->
  str "--PAGE_" ++ ds ++ str "---" = a ++ str "---PAGE_" ++ rest -> False.
Proof.
  intros Hds E.
  do 7 (destruct a as [|? a]; [simplify_eq/=|injection E as _ E]).
  exact (no_marker_in_tail ds a rest Hds E).
Qed.

(** The first page marker of a prefix of the text is the first page marker
    of the text. *)
Lemma search_take_first s : forall n pos pos' ds,
  head (hits (scan_from page_marker pos (take n s))).*2 = Some ds ->
  head (hits (scan_from page_marker pos' s)).*2 = Some ds.
Proof.
  induction s as [|c s IH]; intros n pos pos' ds; [by rewrite take_nil|].
  destruct n as [|n]; [discriminate|]. cbn [take].
  destruct (page_marker (c :: take n s)) as [[m r]|] eqn:E.
  - rewrite (scan_from_hit _ page_marker_shrinks _ _ _ _ E).
    intros H. simpl in H. injection H as ->.
    apply (page_marker_app _ (drop n s)) in E.
    change ((c :: take n s) ++ drop n s) with (c :: (take n s ++ drop n s)) in E.
    rewrite take_drop in E.
    by rewrite (scan_from_hit _ page_marker_shrinks _ _ _ _ E).
  - rewrite (scan_from_miss _ _ _ _ E). cbn [hits omap]. intros H.
    destruct (page_marker (c :: s)) as [[m' r']|] eqn:E'.
    + exfalso. destruct (first_hit_occurs _ _ _ H) as (a & r & Ha).
      apply page_marker_Some in E' as (E' & Hne & Hds).
      injection E' as -> E'.
      destruct (decide (7 + length m' + 3 <= n)) as [Hn|Hn].
      * assert (Et : "-"%char :: take n s
                     = str "---PAGE_" ++ m' ++ str "---" ++ take (n - (7 + length m' + 3)) r').
        { rewrite E'. cbn [str list_ascii_of_string app]. f_equal.
          replace n with (S (S (S (S (S (S (S (n - 7)))))))) at 1 by lia.
          cbn [take]. do 7 f_equal.
          rewrite take_app_ge by lia. f_equal.
          replace (n - 7 - length m')
            with (S (S (S (n - (7 + length m' + 3))))) by lia.
          done. }
        rewrite Et in E.
        assert (page_marker (str "---PAGE_" ++ m' ++ str "---"
                             ++ take (n - (7 + length m' + 3)) r')
                = Some (m', take (n - (7 + length m' + 3)) r')) as E2
          by (by apply page_marker_Some).
        congruence.
      * assert (Hpre : take n s = take n (str "--PAGE_" ++ m' ++ str "---")).
        { assert (E'' : s = (str "--PAGE_" ++ m' ++ str "---") ++ r')
            by (rewrite E'; reassoc).
          rewrite E''. apply take_app_le. rewrite !length_app. simpl. lia. }
        rewrite Hpre in Ha.
        apply (no_marker_in_marker m' a
                 (ds ++ str "---" ++ r ++ drop n (str "--PAGE_" ++ m' ++ str "---")) Hds).
        rewrite <- (take_drop n (str "--PAGE_" ++ m' ++ str "---")) at 1.
        rewrite Ha. reassoc.
    + rewrite (scan_from_miss _ _ _ _ E'). cbn [hits omap]. by eapply IH.
Qed.

Lemma page_of_first txt stop :
  page_of txt stop = 0%Z
  \/ exists ds, search page_marker txt = Some ds /\ page_of txt stop = int ds.
Proof.
  unfold page_of. destruct (slice_to_take txt stop) as [n ->].
  destruct (search page_marker (take n txt)) as [ds|] eqn:E; [|by left].
  right. exists ds. split; [|done]. exact (search_take_first txt n 0 0 ds E).
Qed.

Lemma page_number_first txt k e :
  parse_scientist_entries txt !! k = Some e ->
  page_number e = 0%Z
  \/ exists ds, search page_marker txt = Some ds /\ page_number e = int ds.
Proof.
  intros Hk.
  assert (H : map_Forall (fun _ e => exists stop, page_number e = page_of txt stop)
                (parse_scientist_entries txt)).
  { apply (run_invariant txt (fun st =>
             map_Forall (fun _ e => exists stop, page_number e = page_of txt stop)
               (scientists st))).
    - intros stop st Hm. unfold save.
      destruct (current_scientist st) as [c|] eqn:Ec; [|done]. simpl.
      apply map_Forall_insert_2; [|done]. by exists stop.
    - intros g1 tail st _ Hm. unfold record_reference.
      by destruct (current_scientist st).
    - intros st n w bio Hm. exact Hm.
    - apply map_Forall_empty. }
  destruct (H k e Hk) as [stop ->]. apply page_of_first.
Qed.

(** X19: every stored entity has page number 0 or the number of the first
    page marker of the text, so all page numbers other than 0 are the
    same. *)
Theorem X19_one_page_number_for_all (txt : text) (k : Z) (e : Scientist) :
  parse_scientist_entries txt !! k = Some e ->
  page_number e = 0%Z
  \/ exists ds, search page_marker txt = Some ds /\ page_number e = int ds.
Proof. apply page_number_first. Qed.

Lemma X19_one_page_number_for_all_witness :
  exists e, parse_scientist_entries two_pages !! 2%Z = Some e
    /\ (page_number e = 0%Z
        \/ exists ds, search page_marker two_pages = Some ds /\ page_number e = int ds).
Proof.
  destruct (parse_scientist_entries two_pages !! 2%Z) as [e|] eqn:E;
    [|vm_compute in E; discriminate E].
  exists e. split; [reflexivity|]. exact (X19_one_page_number_for_all _ _ _ E).
Defined.

(** X20: the statistics never count more than one page with scientists,
    whatever the text of the run. *)
Theorem X20_at_most_one_page_counted (txt : text) :
  size (pages_with_scientists (extract_connections (parse_scientist_entries txt))) <= 1.
Proof.
  rewrite extract_connections_parse.
  set (X := pages_with_scientists (parse_scientist_entries txt)).
  assert (Hall : forall x, x ∈ X ->
            exists ds, search page_marker txt = Some ds /\ x = int ds).
  { intros x. unfold X, pages_with_scientists. rewrite elem_of_list_to_set.
    rewrite list_elem_of_In, filter_In, <- list_elem_of_In.
    intros [(e & -> & He)%list_elem_of_fmap Hx].
    apply list_elem_of_fmap in He as ([k e'] & -> & He%elem_of_map_to_list).
    destruct (page_number_first txt k e' He) as [H0|H]; [|done].
    simpl in *. rewrite H0 in Hx. discriminate Hx. }
  destruct (set_choose_or_empty X) as [[x Hx]|HX].
  - assert (E : X ≡ {[x]}).
    { apply set_equiv. intros y. rewrite elem_of_singleton. split.
      - intros Hy. destruct (Hall x Hx) as (ds & Hds & ->).
        destruct (Hall y Hy) as (ds' & Hds' & ->). congruence.
      - by intros ->. }
    rewrite E, size_singleton. done.
  - rewrite HX, size_empty. lia.
Qed.
